(** * Enroute Flight Navigation: manifest reconciliation of the DataManager

    A shallow embedding of [src/dataManagement/DataManager.cpp] and of the
    group aggregator declared in [src/DownloadableGroupWatcher.h].

    - [Qt]: the few library functions of Qt that the code calls
      ([QString::section], [QString::remove], [QJsonValue] accessors,
      [QDateTime::daysTo]).
    - [Downloadable], [Group]: the objects the DataManager owns.  Objects
      live in a heap indexed by pointers; a [QPointer] to a deleted object
      reads as null, which is a failed heap lookup.
    - [DataManager]: the slots of the class, one function per slot, written
      with explicit state passing.  The state holds the objects, the member
      lists of the four groups, the file system, the timer, the persisted
      time stamp, the settings gate and what the class emits.
    - [Watcher]: the cached aggregate values of a group and their change
      notifications.
    - [Scenario]: concrete manifests and states for the examples.
    - [Wiring]: the signals that are connected to the slots of the
      DataManager; the correction of file names in the constructor; the
      sub-groups; [Cases]: further states for the examples.
    - the properties, one section per property of the specification.
    - further properties of the code: the names derived from paths, the
      effect of a pass on the Resources, the files of the cache directory,
      the schedule, sequences of signals, the constructor, the sub-groups.

    Signals are modelled at their receiving end: a slot is a function, and a
    signal that is connected to it is an application of that function
    ([mapsJsonFileContentChanged], [acceptedTermsChanged],
    [autoUpdateTimerTimeout]).  The member lists of the groups change by
    [Group.addToGroup] and [Group.removeFromGroup]; the recomputation of
    the cached values that follows a change is the business of [Watcher],
    and the slot [localFileOfGeoMapChanged], which the signal [filesChanged]
    of the umbrella group starts, is a step of its own.  In a state without
    orphaned Resources that slot changes nothing
    ([localFileOfGeoMapChanged_without_orphans]).

    File paths are taken as normalised: a file is found under the path string
    it was stored with. *)

From stdpp Require Import gmap strings list sorting.
From Stdlib Require Import ZArith Ascii.

(** ** Qt library functions used by the code *)

Module Qt.

(** [QString::split(sep, Qt::KeepEmptyParts)]: the empty string has one
    (empty) field. *)
Fixpoint split (sep : ascii) (s : string) : list string :=
  match s with
  | EmptyString => [EmptyString]
  | String c rest =>
      if Ascii.eqb c sep then EmptyString :: split sep rest
      else match split sep rest with
           | [] => [String c EmptyString]
           | field :: fields => String c field :: fields
           end
  end.

Fixpoint join (sep : ascii) (fields : list string) : string :=
  match fields with
  | [] => EmptyString
  | [field] => field
  | field :: rest => field +:+ String sep (join sep rest)
  end.

(** [QString::section(sep, start, end)] with the default flags: negative
    indices count from the right; an empty string is returned when the
    range misses the fields. *)
Definition section (sep : ascii) (start end_ : Z) (s : string) : string :=
  let sections := split sep s in
  let sectionsSize := Z.of_nat (length sections) in
  let start := if (start <? 0)%Z then (start + sectionsSize)%Z else start in
  let end_ := if (end_ <? 0)%Z then (end_ + sectionsSize)%Z else end_ in
  if (start >=? sectionsSize)%Z || (end_ <? 0)%Z || (start >? end_)%Z
  then EmptyString
  else
    let first := Z.to_nat (Z.max 0 start) in
    join sep (take (Z.to_nat (end_ + 1) - first) (drop first sections)).

(** [QString::remove(const QString &)]: every occurrence of the needle is
    removed, scanning from the left; an empty needle removes nothing. *)
Fixpoint removeFuel (fuel : nat) (needle s : string) : string :=
  match fuel with
  | O => s
  | S fuel' =>
      match s with
      | EmptyString => EmptyString
      | String c rest =>
          if String.prefix needle s
          then removeFuel fuel' needle
                 (String.substring (String.length needle)
                    (String.length s - String.length needle) s)
          else String c (removeFuel fuel' needle rest)
      end
  end.

Definition remove (needle s : string) : string :=
  match needle with
  | EmptyString => s
  | _ => removeFuel (String.length s) needle s
  end.

(** [QString::endsWith] *)
Definition endsWith (s suffix : string) : bool :=
  let n := String.length s in
  let k := String.length suffix in
  (k <=? n) && String.eqb (String.substring (n - k) k s) suffix.

(** [QJsonValue].  A number is kept as the integer it converts to; the
    accessors return the default value of the target type when the value
    has another type, as the Qt accessors do. *)
#[warnings="-register-all"]
Inductive QJsonValue :=
| Null
| Bool (b : bool)
| Double (d : Z)
| String_ (s : string)
| Array (items : list QJsonValue)
| Object (members : list (string * QJsonValue))
| Undefined.

Definition toObject (v : QJsonValue) : list (string * QJsonValue) :=
  match v with Object members => members | _ => [] end.

Definition toArray (v : QJsonValue) : list QJsonValue :=
  match v with Array items => items | _ => [] end.

Definition toString (v : QJsonValue) : string :=
  match v with String_ s => s | _ => EmptyString end.

(** [toInt]: the default 0 unless the number fits an [int]. *)
Definition toInt (v : QJsonValue) : Z :=
  match v with
  | Double d => if (-2147483648 <=? d)%Z && (d <=? 2147483647)%Z then d else 0%Z
  | _ => 0%Z
  end.

(** [QJsonObject::value(key)] *)
Fixpoint value (members : list (string * QJsonValue)) (key : string) : QJsonValue :=
  match members with
  | [] => Undefined
  | (k, v) :: rest => if String.eqb k key then v else value rest key
  end.

(** [QDateTime]: invalid, or a point in time (milliseconds since the
    epoch) together with the offset from UTC (seconds) of its time
    specification. *)
Record DateTime := { msecsSinceEpoch : Z; offsetFromUtc : Z }.
Definition QDateTime := option DateTime.

Definition isValid (t : QDateTime) : bool :=
  match t with Some _ => true | None => false end.

(** [QDateTime::date()], as a day number. *)
Definition date (t : DateTime) : Z :=
  ((msecsSinceEpoch t + 1000 * offsetFromUtc t) / 86400000)%Z.

(** [QDateTime::daysTo]: the difference of the two dates; 0 if one of
    them is invalid. *)
Definition daysTo (t other : QDateTime) : Z :=
  match t, other with
  | Some a, Some b => (date b - date a)%Z
  | _, _ => 0%Z
  end.

Definition currentDateTimeUtc (now : Z) : QDateTime :=
  Some {| msecsSinceEpoch := now; offsetFromUtc := 0 |}.

Definition currentDateTime (now localOffset : Z) : QDateTime :=
  Some {| msecsSinceEpoch := now; offsetFromUtc := localOffset |}.

(** [qAbs] on [int]; a [bool] argument is promoted, [true] to 1. *)
Definition qAbs (t : Z) : Z := if (t >=? 0)%Z then t else (- t)%Z.

Definition intOfBool (b : bool) : Z := if b then 1%Z else 0%Z.

(** [QUrl]: [None] is the default-constructed, empty URL. *)
Definition QUrl := option string.

(** The remaining library functions are taken as an interface: the JSON
    parser, the URL parser's verdict, the date parser, the formatting of
    data sizes and the location of the application data. *)
Class Platform := {
  (** [QJsonDocument::fromJson]; [None] when [parseError.error] is set *)
  fromJson : string -> option QJsonValue;
  (** [QUrl(str).isValid()] *)
  urlStringIsValid : string -> bool;
  (** [QDateTime::fromString(str, "yyyyMMdd")] *)
  dateFromString : string -> QDateTime;
  (** [QLocale::formattedDataSize] *)
  formattedDataSize : Z -> string;
  (** [QStandardPaths::writableLocation(QStandardPaths::AppDataLocation)] *)
  writableLocation : string
}.

Definition urlIsValid `{Platform} (u : QUrl) : bool :=
  match u with
  | None => false
  | Some str => urlStringIsValid str
  end.

End Qt.


(** ** Downloadable objects and the file system *)

(** A file of the local file system.  The file system is a finite map from
    absolute paths to files; directories are not represented. *)
Record File := {
  content : string;
  lastModified : Qt.QDateTime
}.

(** The state of one [DataManagement::Downloadable] object. *)
Record Downloadable := {
  objectName : string;
  section : string;
  url : Qt.QUrl;
  fileName : string;
  remoteFileDate : Qt.QDateTime;
  remoteFileSize : Z;
  downloading : bool
}.

(** Modelled from the spec: the class Downloadable is declared in
    Downloadable.h and implemented in Downloadable.cpp, neither of which is
    among the sources.  A Resource has a local file when a file exists at its
    local path. *)
Definition hasFile (files : gmap string File) (d : Downloadable) : bool :=
  bool_decide (is_Some (files !! fileName d)).

Definition fileSize (f : File) : Z := Z.of_nat (String.length (content f)).

Definition newerThan (remote local_ : Qt.QDateTime) : bool :=
  match remote, local_ with
  | Some r, Some l => (Qt.msecsSinceEpoch l <? Qt.msecsSinceEpoch r)%Z
  | _, _ => false
  end.

(** Modelled from the spec: a Resource is updatable when its local file
    exists, its remote descriptor is valid, and the remote file is newer or
    differently sized than the local one (Downloadable.cpp is not among the
    sources). *)
Definition updatable `{Qt.Platform} (files : gmap string File) (d : Downloadable) : bool :=
  match files !! fileName d with
  | None => false
  | Some f =>
      Qt.urlIsValid (url d)
      && (newerThan (remoteFileDate d) (lastModified f)
          || negb (fileSize f =? remoteFileSize d)%Z)
  end.

(** Modelled from the spec: [setRemoteDescriptor] updates the remote
    metadata and touches nothing else; the code calls it as
    [setRemoteFileDate] and [setRemoteFileSize]. *)
Definition setRemoteFileDate (t : Qt.QDateTime) (d : Downloadable) : Downloadable :=
  {| objectName := objectName d; section := section d; url := url d;
     fileName := fileName d; remoteFileDate := t;
     remoteFileSize := remoteFileSize d; downloading := downloading d |}.

Definition setRemoteFileSize (size : Z) (d : Downloadable) : Downloadable :=
  {| objectName := objectName d; section := section d; url := url d;
     fileName := fileName d; remoteFileDate := remoteFileDate d;
     remoteFileSize := size; downloading := downloading d |}.

(** [new Downloadable(url, fileName, parent)]: the constructor is not among
    the sources; a fresh object has no name, no remote file information and
    no transfer in flight. *)
Definition newDownloadable (u : Qt.QUrl) (localFileName : string) : Downloadable :=
  {| objectName := ""; section := ""; url := u; fileName := localFileName;
     remoteFileDate := None; remoteFileSize := (-1)%Z; downloading := false |}.

Definition setObjectName (name : string) (d : Downloadable) : Downloadable :=
  {| objectName := name; section := section d; url := url d;
     fileName := fileName d; remoteFileDate := remoteFileDate d;
     remoteFileSize := remoteFileSize d; downloading := downloading d |}.

Definition setSection (sectionName : string) (d : Downloadable) : Downloadable :=
  {| objectName := objectName d; section := sectionName; url := url d;
     fileName := fileName d; remoteFileDate := remoteFileDate d;
     remoteFileSize := remoteFileSize d; downloading := downloading d |}.

(** ** Groups of Downloadable objects *)

Module Group.

(** The member list [_downloadables] of a [DownloadableGroup]: pointers in
    the order of insertion.  A pointer whose object was deleted is a null
    [QPointer]. *)

(** The order of [downloadables()]: first by section, then by file name. *)
Definition lessThan (a b : Downloadable) : bool :=
  if String.eqb (section a) (section b)
  then String.ltb (fileName a) (fileName b)
  else String.ltb (section a) (section b).

Definition notAfter (heap : gmap nat Downloadable) (p q : nat) : Prop :=
  match heap !! p, heap !! q with
  | Some a, Some b => lessThan b a = false
  | _, _ => True
  end.

#[global] Instance notAfter_dec heap p q : Decision (notAfter heap p q).
Proof. unfold notAfter. destruct (heap !! p), (heap !! q); apply _. Defined.

(** Modelled from the spec: the body of [downloadables()] is in
    DownloadableGroupWatcher.cpp, which is not among the sources; the
    header documents the list as sorted in ascending order, first by
    section and then by file name, and as never containing the nullptr. *)
Definition downloadables (heap : gmap nat Downloadable) (g : list nat) : list nat :=
  merge_sort (notAfter heap) (filter (λ p, is_Some (heap !! p)) g).

(** A property of the object behind a member pointer; a null pointer has
    none. *)
Definition member (heap : gmap nat Downloadable) (f : Downloadable -> bool)
    (p : nat) : bool :=
  match heap !! p with
  | Some d => f d
  | None => false
  end.

(** Modelled from the spec: [add] inserts, and is a no-op when the same
    object (by reference) is already present. *)
Definition addToGroup (p : nat) (g : list nat) : list nat :=
  if decide (p ∈ g) then g else g ++ [p].

(** Modelled from the spec: [remove] removes the reference and does not
    destroy the object. *)
Definition removeFromGroup (p : nat) (g : list nat) : list nat :=
  filter (λ q, q ≠ p) g.

End Group.

(** ** The DataManager *)

(** What the DataManager does to the outside: the [error] signal it emits,
    and the downloads of the manifest it starts. *)
Inductive Output :=
| error (message : string)
| manifestDownloadStarted.

Definition oneHour : Z := 3600000.
Definition oneDay : Z := 86400000.

Record DataManager := {
  (** the Downloadable objects that exist, by pointer *)
  heap : gmap nat Downloadable;
  (** the pointer the next [new] returns *)
  nextPtr : nat;
  _geoMaps : list nat;
  _aviationMaps : list nat;
  _baseMaps : list nat;
  _databases : list nat;
  (** [_maps_json.downloading()] *)
  mapsJsonDownloading : bool;
  (** [_autoUpdateTimer]: [None] when inactive, else its interval in ms *)
  _autoUpdateTimer : option Z;
  (** the value of "DataManager/MapListTimeStamp" in [QSettings] *)
  mapListTimeStamp : Qt.QDateTime;
  (** [GlobalObject::settings()->acceptedTerms()] *)
  acceptedTerms : bool;
  (** the file system *)
  files : gmap string File;
  (** objects handed to [deleteLater] *)
  deferredDelete : list nat;
  (** outputs so far, oldest first *)
  outputs : list Output
}.

Definition setHeap (h : gmap nat Downloadable) (n : nat) (s : DataManager) : DataManager :=
  {| heap := h; nextPtr := n; _geoMaps := _geoMaps s;
     _aviationMaps := _aviationMaps s; _baseMaps := _baseMaps s;
     _databases := _databases s; mapsJsonDownloading := mapsJsonDownloading s;
     _autoUpdateTimer := _autoUpdateTimer s; mapListTimeStamp := mapListTimeStamp s;
     acceptedTerms := acceptedTerms s; files := files s;
     deferredDelete := deferredDelete s; outputs := outputs s |}.

Definition setGroups (g a b d : list nat) (s : DataManager) : DataManager :=
  {| heap := heap s; nextPtr := nextPtr s; _geoMaps := g;
     _aviationMaps := a; _baseMaps := b; _databases := d;
     mapsJsonDownloading := mapsJsonDownloading s;
     _autoUpdateTimer := _autoUpdateTimer s; mapListTimeStamp := mapListTimeStamp s;
     acceptedTerms := acceptedTerms s; files := files s;
     deferredDelete := deferredDelete s; outputs := outputs s |}.

Definition setFiles (fs : gmap string File) (s : DataManager) : DataManager :=
  {| heap := heap s; nextPtr := nextPtr s; _geoMaps := _geoMaps s;
     _aviationMaps := _aviationMaps s; _baseMaps := _baseMaps s;
     _databases := _databases s; mapsJsonDownloading := mapsJsonDownloading s;
     _autoUpdateTimer := _autoUpdateTimer s; mapListTimeStamp := mapListTimeStamp s;
     acceptedTerms := acceptedTerms s; files := fs;
     deferredDelete := deferredDelete s; outputs := outputs s |}.

(** The scheduling part of the state: transfer flag of the manifest, timer,
    time stamp, settings gate, deferred deletions and outputs. *)
Definition setControl (dl : bool) (timer : option Z) (stamp : Qt.QDateTime)
    (accepted : bool) (later : list nat) (out : list Output)
    (s : DataManager) : DataManager :=
  {| heap := heap s; nextPtr := nextPtr s; _geoMaps := _geoMaps s;
     _aviationMaps := _aviationMaps s; _baseMaps := _baseMaps s;
     _databases := _databases s; mapsJsonDownloading := dl;
     _autoUpdateTimer := timer; mapListTimeStamp := stamp;
     acceptedTerms := accepted; files := files s;
     deferredDelete := later; outputs := out |}.

Section DataManager.

Context `{Qt.Platform}.

(** The local file of [_maps_json]. *)
Definition mapsJsonFileName : string := Qt.writableLocation +:+ "/maps.json".

Definition aviationMapsDir : string := Qt.writableLocation +:+ "/aviation_maps".

(** [_geoMaps.downloadables()] *)
Definition geoMapsDownloadables (s : DataManager) : list nat :=
  Group.downloadables (heap s) (_geoMaps s).

(** [new Downloadable(...)]: the object is stored under a fresh pointer. *)
Definition new (d : Downloadable) (s : DataManager) : nat * DataManager :=
  (nextPtr s, setHeap (<[nextPtr s := d]> (heap s)) (S (nextPtr s)) s).

(** [delete ptr]: every [QPointer] to the object becomes null. *)
Definition deleteObject (p : nat) (s : DataManager) : DataManager :=
  setHeap (delete p (heap s)) (nextPtr s) s.

(** A setter called through a pointer. *)
Definition update (p : nat) (f : Downloadable -> Downloadable) (s : DataManager)
  : DataManager :=
  setHeap (alter f p (heap s)) (nextPtr s) s.

(** Modelled from the spec: [startTransfer] on the manifest Resource begins
    a fetch, and is a no-op while a transfer is active (Downloadable.cpp is
    not among the sources). *)
Definition startFileDownload (s : DataManager) : DataManager :=
  if mapsJsonDownloading s then s
  else setControl true (_autoUpdateTimer s) (mapListTimeStamp s)
         (acceptedTerms s) (deferredDelete s)
         (outputs s ++ [manifestDownloadStarted]) s.

(** [_autoUpdateTimer.start(interval)] *)
Definition timerStart (interval : Z) (s : DataManager) : DataManager :=
  setControl (mapsJsonDownloading s) (Some interval) (mapListTimeStamp s)
    (acceptedTerms s) (deferredDelete s) (outputs s) s.

Definition updateGeoMapList (s : DataManager) : DataManager :=
  startFileDownload s.

Definition errorReceiver (message : string) (s : DataManager) : DataManager :=
  setControl (mapsJsonDownloading s) (_autoUpdateTimer s) (mapListTimeStamp s)
    (acceptedTerms s) (deferredDelete s) (outputs s ++ [error message]) s.

(** [geoMapPtr->deleteLater()] *)
Definition deleteLater (p : nat) (s : DataManager) : DataManager :=
  setControl (mapsJsonDownloading s) (_autoUpdateTimer s) (mapListTimeStamp s)
    (acceptedTerms s) (deferredDelete s ++ [p]) (outputs s) s.

Definition geoMapsRemoveFromGroup (p : nat) (s : DataManager) : DataManager :=
  setGroups (Group.removeFromGroup p (_geoMaps s)) (_aviationMaps s)
    (_baseMaps s) (_databases s) s.

Definition geoMapsAddToGroup (p : nat) (s : DataManager) : DataManager :=
  setGroups (Group.addToGroup p (_geoMaps s)) (_aviationMaps s)
    (_baseMaps s) (_databases s) s.

Definition aviationMapsAddToGroup (p : nat) (s : DataManager) : DataManager :=
  setGroups (_geoMaps s) (Group.addToGroup p (_aviationMaps s))
    (_baseMaps s) (_databases s) s.

Definition baseMapsAddToGroup (p : nat) (s : DataManager) : DataManager :=
  setGroups (_geoMaps s) (_aviationMaps s)
    (Group.addToGroup p (_baseMaps s)) (_databases s) s.

Definition databasesAddToGroup (p : nat) (s : DataManager) : DataManager :=
  setGroups (_geoMaps s) (_aviationMaps s) (_baseMaps s)
    (Group.addToGroup p (_databases s)) s.

(** One round of the loop of [localFileOfGeoMapChanged]. *)
Definition removeIfOrphaned (s : DataManager) (geoMapPtr : nat) : DataManager :=
  match heap s !! geoMapPtr with
  | None => s
  | Some d =>
      if Qt.urlIsValid (url d) then s
      else if hasFile (files s) d then s
      else deleteLater geoMapPtr (geoMapsRemoveFromGroup geoMapPtr s)
  end.

Definition localFileOfGeoMapChanged (s : DataManager) : DataManager :=
  let geoMaps := geoMapsDownloadables s in
  foldl removeIfOrphaned s geoMaps.

(** [QDirIterator(dir, QDir::Files, QDirIterator::Subdirectories)]: the
    paths of the files below [dir]. *)
Definition filesBelow (dir : string) (fs : gmap string File) : list string :=
  filter (λ path, String.prefix (dir +:+ "/") path = true) (map fst (map_to_list fs)).

(** The inner loop of [unattachedFiles].  [QFileInfo::absoluteFilePath]
    returns the iterator's path as it is: the path is absolute. *)
Fixpoint isAttachedToAviationMap (heap : gmap nat Downloadable)
    (geoMaps : list nat) (filePath : string) : bool :=
  match geoMaps with
  | [] => false
  | geoMapPtr :: rest =>
      match heap !! geoMapPtr with
      | Some d =>
          if String.eqb (fileName d) filePath then true
          else isAttachedToAviationMap heap rest filePath
      | None => isAttachedToAviationMap heap rest filePath
      end
  end.

Definition unattachedFiles (s : DataManager) : list string :=
  filter (λ filePath,
            isAttachedToAviationMap (heap s) (geoMapsDownloadables s) filePath = false)
         (filesBelow aviationMapsDir (files s)).

(** The search of [readGeoMapListFromJSONFile] for an old map with the
    given name: the first one in the list. *)
Fixpoint findByName (heap : gmap nat Downloadable) (oldMaps : list nat)
    (name : string) : option nat :=
  match oldMaps with
  | [] => None
  | geoMapPtr :: rest =>
      match heap !! geoMapPtr with
      | Some d =>
          if String.eqb (objectName d) name then Some geoMapPtr
          else findByName heap rest name
      | None => findByName heap rest name
      end
  end.

(** [oldMaps.removeAll(mapPtr)] *)
Definition removeAll (mapPtr : nat) (oldMaps : list nat) : list nat :=
  filter (λ q, q ≠ mapPtr) oldMaps.

(** The fields the code reads from one element of the array "maps". *)
Definition mapFileNameOf (map : Qt.QJsonValue) : string :=
  Qt.toString (Qt.value (Qt.toObject map) "path").

Definition mapNameOf (map : Qt.QJsonValue) : string :=
  Qt.section "." (-2) (-2) (mapFileNameOf map).

(** The name the code looks up and gives to a new object:
    [mapName.section("/", -1, -1)]. *)
Definition entryName (map : Qt.QJsonValue) : string :=
  Qt.section "/" (-1) (-1) (mapNameOf map).

Definition entryDate (map : Qt.QJsonValue) : Qt.QDateTime :=
  Qt.dateFromString (Qt.toString (Qt.value (Qt.toObject map) "time")).

Definition entrySize (map : Qt.QJsonValue) : Z :=
  Qt.toInt (Qt.value (Qt.toObject map) "size").

(** The branch "Map exists". *)
Definition updateExisting (mapPtr : nat) (map : Qt.QJsonValue)
    (s : DataManager) : DataManager :=
  update mapPtr (setRemoteFileSize (entrySize map))
    (update mapPtr (setRemoteFileDate (entryDate map)) s).

(** The branch that constructs a new Downloadable object. *)
Definition createFromEntry (baseURL : string) (map : Qt.QJsonValue)
    (s : DataManager) : DataManager :=
  let mapFileName := mapFileNameOf map in
  let mapName := mapNameOf map in
  let mapUrlName := baseURL +:+ "/" +:+ mapFileName in
  let localFileName := Qt.writableLocation +:+ "/aviation_maps/" +:+ mapFileName in
  let '(downloadable, s) := new (newDownloadable (Some mapUrlName) localFileName) s in
  let s := update downloadable (setObjectName (Qt.section "/" (-1) (-1) mapName)) s in
  let s := update downloadable (setSection (Qt.section "/" (-2) (-2) mapName)) s in
  let s := update downloadable (setRemoteFileDate (entryDate map)) s in
  let s := update downloadable (setRemoteFileSize (entrySize map)) s in
  let s := geoMapsAddToGroup downloadable s in
  let s := if Qt.endsWith localFileName "geojson"
           then aviationMapsAddToGroup downloadable s else s in
  let s := if Qt.endsWith localFileName "mbtiles"
           then baseMapsAddToGroup downloadable s else s in
  if Qt.endsWith localFileName "txt"
  then databasesAddToGroup downloadable s else s.

(** One round of the loop over the array "maps"; the accumulator is the
    state together with [oldMaps]. *)
Definition reconcileEntry (baseURL : string) (acc : DataManager * list nat)
    (map : Qt.QJsonValue) : DataManager * list nat :=
  let '(s, oldMaps) := acc in
  match findByName (heap s) oldMaps (entryName map) with
  | Some mapPtr => (updateExisting mapPtr map s, removeAll mapPtr oldMaps)
  | None => (createFromEntry baseURL map s, oldMaps)
  end.

(** One round of the loop over the leftover objects of [oldMaps]. *)
Definition deleteIfNoFile (s : DataManager) (geoMapPtr : nat) : DataManager :=
  match heap s !! geoMapPtr with
  | None => s
  | Some d => if hasFile (files s) d then s else deleteObject geoMapPtr s
  end.

(** The object name given to an unattached file. *)
Definition unattachedName (path : string) : string :=
  Qt.section "." 0 0 (Qt.remove (Qt.writableLocation +:+ "/aviation_maps/") path).

(** One round of the loop over [unattachedFiles()]. *)
Definition addUnattached (s : DataManager) (path : string) : DataManager :=
  let '(downloadable, s) := new (newDownloadable None path) s in
  let s := update downloadable (setSection "Unsupported Maps") s in
  let s := update downloadable (setObjectName (unattachedName path)) s in
  geoMapsAddToGroup downloadable s.

(** The three loops of [readGeoMapListFromJSONFile], for a parsed
    document. *)
Definition manifestEntries (doc : Qt.QJsonValue) : list Qt.QJsonValue :=
  Qt.toArray (Qt.value (Qt.toObject doc) "maps").

Definition reconcileManifest (doc : Qt.QJsonValue) (s : DataManager)
  : DataManager * list nat :=
  let oldMaps := geoMapsDownloadables s in
  let baseURL := Qt.toString (Qt.value (Qt.toObject doc) "url") in
  foldl (reconcileEntry baseURL) (s, oldMaps) (manifestEntries doc).

Definition deleteLeftovers (acc : DataManager * list nat) : DataManager :=
  foldl deleteIfNoFile acc.1 acc.2.

Definition addUnattachedFiles (s : DataManager) : DataManager :=
  foldl addUnattached s (unattachedFiles s).

Definition readGeoMapListFromJSONFile (s : DataManager) : DataManager :=
  match files s !! mapsJsonFileName with
  | None => s
  | Some mapsJson =>
      match Qt.fromJson (content mapsJson) with
      | None => s
      | Some doc => addUnattachedFiles (deleteLeftovers (reconcileManifest doc s))
      end
  end.

Definition setTimeOfLastUpdateToNow (now : Z) (s : DataManager) : DataManager :=
  let s := setControl (mapsJsonDownloading s) (_autoUpdateTimer s)
             (Qt.currentDateTimeUtc now) (acceptedTerms s)
             (deferredDelete s) (outputs s) s in
  timerStart oneDay s.

(** The condition of [autoUpdateGeoMapList], as the code writes it:
    [qAbs] is applied to the result of the comparison. *)
Definition updateIsDue (now localOffset : Z) (s : DataManager) : bool :=
  let lastUpdate := mapListTimeStamp s in
  negb (Qt.isValid lastUpdate)
  || negb (Qt.qAbs (Qt.intOfBool
             (Qt.daysTo lastUpdate (Qt.currentDateTime now localOffset) >? 6)%Z)
           =? 0)%Z.

Definition autoUpdateGeoMapList (now localOffset : Z) (s : DataManager)
  : DataManager :=
  if updateIsDue now localOffset s
  then updateGeoMapList (timerStart oneHour s)
  else timerStart oneDay s.

Definition deferredInitialization (now localOffset : Z) (s : DataManager)
  : DataManager :=
  let s := if acceptedTerms s then autoUpdateGeoMapList now localOffset s else s in
  match files s !! mapsJsonFileName with
  | Some _ => readGeoMapListFromJSONFile s
  | None => if acceptedTerms s then startFileDownload s else s
  end.

(** [QFile::remove(path)] *)
Definition removeFile (s : DataManager) (path : string) : DataManager :=
  setFiles (delete path (files s)) s.

(** [cleanUp]: the unattached files are removed and every geo map is
    deleted.  The removal of empty directories has no effect on the
    state, which holds files only. *)
Definition cleanUp (s : DataManager) : DataManager :=
  let s := foldl removeFile s (unattachedFiles s) in
  foldl (λ s geoMapPtr, deleteObject geoMapPtr s) s (geoMapsDownloadables s).

(** The two slots connected to [_maps_json.fileContentChanged], in the
    order of their connection. *)
Definition mapsJsonFileContentChanged (now : Z) (s : DataManager) : DataManager :=
  setTimeOfLastUpdateToNow now (readGeoMapListFromJSONFile s).

(** Modelled from the spec: a download of the manifest that succeeds
    replaces the local file, ends the transfer and announces the new
    content (Downloadable.cpp is not among the sources). *)
Definition mapsJsonDownloadFinished (newContent : File) (now : Z)
    (s : DataManager) : DataManager :=
  let s := setFiles (<[mapsJsonFileName := newContent]> (files s)) s in
  let s := setControl false (_autoUpdateTimer s) (mapListTimeStamp s)
             (acceptedTerms s) (deferredDelete s) (outputs s) s in
  mapsJsonFileContentChanged now s.

(** Modelled from the spec: a download of the manifest that fails ends the
    transfer and raises the [error] signal of [_maps_json], which is
    connected to [errorReceiver]. *)
Definition mapsJsonDownloadFailed (message : string) (s : DataManager)
  : DataManager :=
  let s := setControl false (_autoUpdateTimer s) (mapListTimeStamp s)
             (acceptedTerms s) (deferredDelete s) (outputs s) s in
  errorReceiver message s.

(** Modelled from the spec: the settings provider is not among the
    sources.  When the setting changes, [acceptedTermsChanged] is emitted;
    [deferredInitialization] connects that signal to [updateGeoMapList]. *)
Definition acceptedTermsChanged (accepted : bool) (s : DataManager) : DataManager :=
  updateGeoMapList
    (setControl (mapsJsonDownloading s) (_autoUpdateTimer s)
       (mapListTimeStamp s) accepted (deferredDelete s) (outputs s) s).

(** The timer fires only while it is active; its [timeout] signal is
    connected to [autoUpdateGeoMapList]. *)
Definition autoUpdateTimerTimeout (now localOffset : Z) (s : DataManager)
  : DataManager :=
  match _autoUpdateTimer s with
  | Some _ => autoUpdateGeoMapList now localOffset s
  | None => s
  end.


(** A Resource is orphaned when its remote URL is invalid and it has no
    local file. *)
Definition orphaned (s : DataManager) (d : Downloadable) : bool :=
  negb (Qt.urlIsValid (url d)) && negb (hasFile (files s) d).

(** The orphaned members of the umbrella group. *)
Definition orphans (s : DataManager) : list nat :=
  filter (λ p, Group.member (heap s) (orphaned s) p = true) (_geoMaps s).

(** The document [readGeoMapListFromJSONFile] works on: the manifest file
    exists and its content parses. *)
Definition parsedManifest (s : DataManager) : option Qt.QJsonValue :=
  match files s !! mapsJsonFileName with
  | None => None
  | Some mapsJson => Qt.fromJson (content mapsJson)
  end.

(** The state after the loop over the manifest and the loop over the
    leftover objects, before the unattached files are looked at. *)
Definition afterManifest (doc : Qt.QJsonValue) (s : DataManager) : DataManager :=
  deleteLeftovers (reconcileManifest doc s).


Definition entryLocalFileName (map : Qt.QJsonValue) : string :=
  Qt.writableLocation +:+ "/aviation_maps/" +:+ mapFileNameOf map.

(** The object that the loop over the manifest constructs for an entry,
    once its setters have run. *)
Definition createdObject (baseURL : string) (map : Qt.QJsonValue) : Downloadable :=
  {| objectName := entryName map;
     section := Qt.section "/" (-2) (-2) (mapNameOf map);
     url := Some (baseURL +:+ "/" +:+ mapFileNameOf map);
     fileName := entryLocalFileName map;
     remoteFileDate := entryDate map;
     remoteFileSize := entrySize map;
     downloading := false |}.

(** The object that wraps an unattached file. *)
Definition unattachedObject (path : string) : Downloadable :=
  {| objectName := unattachedName path;
     section := "Unsupported Maps";
     url := None;
     fileName := path;
     remoteFileDate := None;
     remoteFileSize := (-1)%Z;
     downloading := false |}.

(** The object an entry ends up with: the old map of its name, which the
    round re-uses, or else the new object. *)
Definition entryPtr (acc : DataManager * list nat) (map : Qt.QJsonValue) : nat :=
  match findByName (heap acc.1) acc.2 (entryName map) with
  | Some mapPtr => mapPtr
  | None => nextPtr acc.1
  end.

(** The objects of the entries of the manifest, in the order of the
    entries. *)
Fixpoint entryPtrs (baseURL : string) (acc : DataManager * list nat)
    (entries : list Qt.QJsonValue) : list nat :=
  match entries with
  | [] => []
  | map :: rest =>
      entryPtr acc map :: entryPtrs baseURL (reconcileEntry baseURL acc map) rest
  end.

(** The two setters of the branch "Map exists". *)
Definition withEntry (map : Qt.QJsonValue) (d : Downloadable) : Downloadable :=
  setRemoteFileSize (entrySize map) (setRemoteFileDate (entryDate map) d).

(** The state of the object of an entry after its round: the remote file
    information of the entry on the re-used object, or the new object. *)
Definition entryObject (baseURL : string) (heap : gmap nat Downloadable)
    (p : nat) (map : Qt.QJsonValue) : Downloadable :=
  match heap !! p with
  | Some d => withEntry map d
  | None => createdObject baseURL map
  end.

(** What the loop over the leftover objects leaves of the object behind
    [p]: an object of the list is deleted when it has no local file. *)
Definition survivor (fs : gmap string File) (leftovers : list nat) (p : nat)
    (o : option Downloadable) : option Downloadable :=
  match o with
  | Some d =>
      if decide (p ∈ leftovers)
      then (if hasFile fs d then Some d else None)
      else Some d
  | None => None
  end.

(** The part of the state that the reconciliation does not touch. *)
Definition sameControl (s s' : DataManager) : Prop :=
  mapsJsonDownloading s' = mapsJsonDownloading s
  ∧ _autoUpdateTimer s' = _autoUpdateTimer s
  ∧ mapListTimeStamp s' = mapListTimeStamp s
  ∧ acceptedTerms s' = acceptedTerms s
  ∧ files s' = files s
  ∧ deferredDelete s' = deferredDelete s
  ∧ outputs s' = outputs s.

(** Pointers handed out so far are below [nextPtr]. *)
Definition wellFormed (s : DataManager) : Prop :=
  map_Forall (λ p _, p < nextPtr s) (heap s)
  ∧ Forall (λ p, p < nextPtr s) (_geoMaps s).

(** The loop over the manifest can start: the old maps are live members
    of the umbrella group. *)
Definition loopReady (s : DataManager) (oldMaps : list nat) : Prop :=
  wellFormed s
  ∧ ∀ p, p ∈ oldMaps → p ∈ _geoMaps s ∧ is_Some (heap s !! p).

(** What rounds of the loop over the manifest have done, from the state
    [s] with the old maps [oldMaps] to the state [s'] with the old maps
    [oldMaps']; [ptrs] are the objects of the entries. *)
Record ManifestLoop (baseURL : string) (s : DataManager) (oldMaps : list nat)
    (entries : list Qt.QJsonValue) (s' : DataManager) (oldMaps' : list nat)
    (ptrs : list nat) : Prop := {
  loop_control : sameControl s s';
  loop_nextPtr : nextPtr s ≤ nextPtr s';
  loop_geoMaps :
    ∀ p, p ∈ _geoMaps s' ↔ p ∈ _geoMaps s ∨ (p ∈ ptrs ∧ nextPtr s ≤ p);
  loop_oldMaps : ∀ p, p ∈ oldMaps' ↔ p ∈ oldMaps ∧ p ∉ ptrs;
  loop_untouched : ∀ p, p ∉ ptrs → heap s' !! p = heap s !! p;
  loop_range : ∀ p, p ∈ ptrs → p ∈ oldMaps ∨ nextPtr s ≤ p < nextPtr s';
  loop_NoDup : NoDup ptrs;
  loop_length : length ptrs = length entries;
  loop_objects :
    ∀ i p map, ptrs !! i = Some p → entries !! i = Some map →
      heap s' !! p = Some (entryObject baseURL (heap s) p map)
      ∧ objectName (entryObject baseURL (heap s) p map) = entryName map;
  loop_created :
    ∀ i p map, ptrs !! i = Some p → entries !! i = Some map → nextPtr s ≤ p →
      ∀ q d, q ∈ oldMaps' → heap s !! q = Some d → objectName d ≠ entryName map
}.

Definition baseURLOf (doc : Qt.QJsonValue) : string :=
  Qt.toString (Qt.value (Qt.toObject doc) "url").

(** The objects of the entries of the manifest in a pass that starts in
    the state [s]. *)
Definition manifestPtrs (doc : Qt.QJsonValue) (s : DataManager) : list nat :=
  entryPtrs (baseURLOf doc) (s, geoMapsDownloadables s) (manifestEntries doc).

(** Where a Resource of the umbrella group comes from, after a pass that
    started in the state [s] with the manifest [doc]: it is the old map
    that an entry re-used, the new object of an entry, an old map that no
    entry re-used and that has a local file, or the wrapper of an
    unattached file. *)
Inductive Origin (doc : Qt.QJsonValue) (s : DataManager) (p : nat)
    (d : Downloadable) : Prop :=
| reused (i : nat) (map : Qt.QJsonValue) (d0 : Downloadable) :
    manifestPtrs doc s !! i = Some p →
    manifestEntries doc !! i = Some map →
    p ∈ _geoMaps s →
    heap s !! p = Some d0 →
    objectName d0 = entryName map →
    d = withEntry map d0 →
    Origin doc s p d
| created (i : nat) (map : Qt.QJsonValue) :
    manifestPtrs doc s !! i = Some p →
    manifestEntries doc !! i = Some map →
    nextPtr s ≤ p →
    d = createdObject (baseURLOf doc) map →
    (∀ q d0, q ∈ _geoMaps s → heap s !! q = Some d0 →
             q ∉ manifestPtrs doc s → objectName d0 ≠ entryName map) →
    Origin doc s p d
| retained :
    p ∈ _geoMaps s →
    heap s !! p = Some d →
    p ∉ manifestPtrs doc s →
    hasFile (files s) d = true →
    Origin doc s p d
| wrapped (i : nat) (path : string) :
    unattachedFiles (afterManifest doc s) !! i = Some path →
    p = nextPtr (afterManifest doc s) + i →
    d = unattachedObject path →
    Origin doc s p d.



End DataManager.

(** ** Concrete manifests, platforms and states *)

Module Scenario.

Import Qt.

Definition entry (path : string) (size : Z) (time : string) : QJsonValue :=
  Object [("path", String_ path); ("size", Double size); ("time", String_ time)].

Definition manifest (baseURL : string) (entries : list QJsonValue) : QJsonValue :=
  Object [("url", String_ baseURL); ("maps", Array entries)].

Fixpoint digits (s : string) (acc : Z) : option Z :=
  match s with
  | EmptyString => Some acc
  | String c rest =>
      let n := nat_of_ascii c in
      if (48 <=? n) && (n <=? 57)
      then digits rest (10 * acc + Z.of_nat (n - 48))%Z
      else None
  end.

(** A platform for the examples: the JSON parser is given by the table of
    the file contents that parse, with their documents; a URL is valid
    when it starts with "https://"; a date of eight digits is valid, and
    later dates are later points in time. *)
Definition platform (parses : list (string * QJsonValue)) : Platform :=
  {| fromJson := λ bytes, snd <$> head (filter (λ kv, kv.1 = bytes) parses);
     urlStringIsValid := λ str, String.prefix "https://" str;
     dateFromString := λ str,
       if String.length str =? 8
       then (λ n, {| msecsSinceEpoch := n; offsetFromUtc := 0 |}) <$> digits str 0
       else None;
     formattedDataSize := λ n, if (n <? 1000)%Z then "small" else "large";
     writableLocation := "/data" |}.

Definition file (bytes : string) : File :=
  {| content := bytes; lastModified := None |}.

(** A DataManager right after its construction, on the given file
    system. *)
Definition fresh (fs : gmap string File) : DataManager :=
  {| heap := ∅; nextPtr := 0; _geoMaps := []; _aviationMaps := [];
     _baseMaps := []; _databases := []; mapsJsonDownloading := false;
     _autoUpdateTimer := None; mapListTimeStamp := None;
     acceptedTerms := false; files := fs; deferredDelete := [];
     outputs := [] |}.

Definition baseURL : string := "https://cplx.vm.uni-freiburg.de/storage".

(** The manifests of the examples. *)
Definition lakes : QJsonValue :=
  manifest baseURL [entry "europe/lakes.geojson" 1000 "20230101"].

Definition twoLakes : QJsonValue :=
  manifest baseURL [entry "europe/lakes.geojson" 1000 "20230101";
                    entry "asia/lakes.geojson" 500 "20230101"].

Definition zoneLakes : QJsonValue :=
  manifest baseURL [entry "Zone/lakes.geojson" 1000 "20230101"].

Definition noMaps : QJsonValue := manifest baseURL [].

Definition orphanOffered : QJsonValue :=
  manifest baseURL [entry "europe/orphan.mbtiles" 1000 "20230101"].

Definition examples : Platform :=
  platform [("lakes", lakes); ("twoLakes", twoLakes); ("zoneLakes", zoneLakes);
            ("noMaps", noMaps); ("orphanOffered", orphanOffered)].

#[local] Existing Instance examples.

(** File systems: the manifest file with the given content, and possibly
    files of the cache directory. *)
Definition withManifest (bytes : string) (fs : gmap string File) : gmap string File :=
  <["/data/maps.json" := file bytes]> fs.

Definition lakesPath : string := "/data/aviation_maps/europe/lakes.geojson".
Definition orphanPath : string := "/data/aviation_maps/orphan.mbtiles".

(** The manifest file does not parse. *)
Definition malformed : DataManager :=
  fresh (withManifest "{ maps: [" ∅).


(** The map "lakes" is offered and installed; then a manifest that omits
    it is downloaded. *)
Definition lakesInstalled : DataManager :=
  readGeoMapListFromJSONFile
    (fresh (withManifest "lakes" (<[lakesPath := file "old data"]> ∅))).

Definition lakesWithdrawn : DataManager :=
  mapsJsonDownloadFinished (file "noMaps") 1700000000000 lakesInstalled.



(** The manifest offers europe/lakes.geojson and the cache directory
    holds the unattached file orphan.mbtiles. *)
Definition lakesAndOrphan : DataManager :=
  fresh (withManifest "lakes" (<[orphanPath := file "tiles"]> ∅)).


(** The terms were accepted and the timer runs; then the terms are
    withdrawn.  The last update is recent. *)
Definition accepted : DataManager :=
  {| heap := ∅; nextPtr := 0; _geoMaps := []; _aviationMaps := [];
     _baseMaps := []; _databases := []; mapsJsonDownloading := false;
     _autoUpdateTimer := Some oneDay;
     mapListTimeStamp := currentDateTimeUtc 1700000000000;
     acceptedTerms := true; files := withManifest "noMaps" ∅;
     deferredDelete := []; outputs := [] |}.

(** The terms are not accepted, the timer runs and no update is
    recorded. *)
Definition notAccepted : DataManager :=
  {| heap := ∅; nextPtr := 0; _geoMaps := []; _aviationMaps := [];
     _baseMaps := []; _databases := []; mapsJsonDownloading := false;
     _autoUpdateTimer := Some oneDay; mapListTimeStamp := None;
     acceptedTerms := false; files := withManifest "noMaps" ∅;
     deferredDelete := []; outputs := [] |}.

End Scenario.

(** ** The group watcher *)

Module Watcher.

(** The cached values of [DownloadableGroupWatcher] and its member list,
    as the header declares them. *)
Record t := {
  _cachedDownloading : bool;
  _cachedDownloadablesWithFile : list nat;
  _cachedFiles : list string;
  _cachedHasFile : bool;
  _cachedUpdatable : bool;
  _cachedUpdateSize : string;
  _downloadables : list nat
}.

(** The notifier signals of the derived properties. *)
Inductive Signal :=
| downloadablesWithFileChanged (value : list nat)
| downloadingChanged (value : bool)
| filesChanged (value : list string)
| hasFileChanged (value : bool)
| updatableChanged (value : bool)
| updateSizeChanged (value : string).

(** The order of [QStringList::sort]. *)
Definition stringLe (a b : string) : Prop := String.leb a b = true.

#[global] Instance stringLe_dec a b : Decision (stringLe a b).
Proof. unfold stringLe. apply _. Defined.

Section Getters.

Context `{Qt.Platform}.

(** The objects and files the watcher looks at. *)
Variable heap : gmap nat Downloadable.
Variable files : gmap string File.

(** The state of the object behind a member pointer. *)
Definition memberDownloading (p : nat) : bool :=
  Group.member heap downloading p.

Definition memberHasFile (p : nat) : bool :=
  Group.member heap (hasFile files) p.

Definition memberUpdatable (p : nat) : bool :=
  Group.member heap (updatable files) p.

Definition memberFile (p : nat) : option string :=
  match heap !! p with
  | Some d => if hasFile files d then Some (fileName d) else None
  | None => None
  end.

Definition updateSizeBytes (p : nat) : Z :=
  match heap !! p with
  | Some d => if updatable files d then remoteFileSize d else 0%Z
  | None => 0%Z
  end.

(** [cleanUp]: remove all instances of nullptr from [_downloadables]. *)
Definition cleanUp (members : list nat) : list nat :=
  filter (λ p, is_Some (heap !! p)) members.

(** Modelled from the spec: the getters of the derived properties are
    implemented in DownloadableGroupWatcher.cpp, which is not among the
    sources.  [downloading], [hasFile] and [updatable] are the logical
    OR over the members; [files] is the sorted list of the local paths
    of the members that have a local file; [updateSize] formats the sum
    of the update sizes of the updatable members, and is empty when the
    sum is zero. *)
Definition downloading (members : list nat) : bool :=
  existsb memberDownloading members.

Definition hasFile (members : list nat) : bool :=
  existsb memberHasFile members.

Definition updatable (members : list nat) : bool :=
  existsb memberUpdatable members.

Definition downloadablesWithFile (members : list nat) : list nat :=
  filter (λ p, memberHasFile p = true) (Group.downloadables heap members).

Definition files_ (members : list nat) : list string :=
  merge_sort stringLe (omap memberFile members).

Definition updateSize (members : list nat) : string :=
  let sum := foldr (λ p acc, (updateSizeBytes p + acc)%Z) 0%Z members in
  if (sum =? 0)%Z then EmptyString else Qt.formattedDataSize sum.

(** Modelled from the spec: the body of [checkAndEmitSignals] is in
    DownloadableGroupWatcher.cpp, which is not among the sources.
    Entries whose object is gone are pruned; then each derived value is
    recomputed and compared with the cached value; a change notification
    is emitted only on inequality, and the cache is overwritten. *)
Definition checkAndEmitSignals (w : t) : t * list Signal :=
  let members := cleanUp (_downloadables w) in
  let newDownloadablesWithFile := downloadablesWithFile members in
  let newDownloading := downloading members in
  let newFiles := files_ members in
  let newHasFile := hasFile members in
  let newUpdatable := updatable members in
  let newUpdateSize := updateSize members in
  ({| _cachedDownloading := newDownloading;
      _cachedDownloadablesWithFile := newDownloadablesWithFile;
      _cachedFiles := newFiles;
      _cachedHasFile := newHasFile;
      _cachedUpdatable := newUpdatable;
      _cachedUpdateSize := newUpdateSize;
      _downloadables := members |},
   (if decide (newDownloadablesWithFile = _cachedDownloadablesWithFile w)
    then [] else [downloadablesWithFileChanged newDownloadablesWithFile])
   ++ (if decide (newDownloading = _cachedDownloading w)
       then [] else [downloadingChanged newDownloading])
   ++ (if decide (newFiles = _cachedFiles w)
       then [] else [filesChanged newFiles])
   ++ (if decide (newHasFile = _cachedHasFile w)
       then [] else [hasFileChanged newHasFile])
   ++ (if decide (newUpdatable = _cachedUpdatable w)
       then [] else [updatableChanged newUpdatable])
   ++ (if decide (newUpdateSize = _cachedUpdateSize w)
       then [] else [updateSizeChanged newUpdateSize])).

Definition setMembers (members : list nat) (w : t) : t :=
  {| _cachedDownloading := _cachedDownloading w;
     _cachedDownloadablesWithFile := _cachedDownloadablesWithFile w;
     _cachedFiles := _cachedFiles w;
     _cachedHasFile := _cachedHasFile w;
     _cachedUpdatable := _cachedUpdatable w;
     _cachedUpdateSize := _cachedUpdateSize w;
     _downloadables := members |}.

(** Membership changes are followed by the recomputation. *)
Definition addToGroup (p : nat) (w : t) : t * list Signal :=
  checkAndEmitSignals (setMembers (Group.addToGroup p (_downloadables w)) w).

Definition removeFromGroup (p : nat) (w : t) : t * list Signal :=
  checkAndEmitSignals (setMembers (Group.removeFromGroup p (_downloadables w)) w).

End Getters.

(** What can happen to a watched group: a member is added, a member is
    removed, or the state of the members (their transfer state, their
    remote information, their local files) changes and a member notifies
    the watcher. *)
Inductive Event :=
| add (p : nat)
| remove (p : nat)
| memberChanged (heap : gmap nat Downloadable) (files : gmap string File).

Record World := {
  objects : gmap nat Downloadable;
  localFiles : gmap string File;
  watcher : t
}.

(** One step: the event, then the recomputation.  The result records the
    watcher before the recomputation and the signals it emitted. *)
Record Step := {
  before : World;
  after : World;
  emitted : list Signal
}.

Definition step `{Qt.Platform} (x : World) (e : Event) : Step :=
  match e with
  | add p =>
      let '(w, signals) := addToGroup (objects x) (localFiles x) p (watcher x) in
      {| before := x;
         after := {| objects := objects x; localFiles := localFiles x; watcher := w |};
         emitted := signals |}
  | remove p =>
      let '(w, signals) := removeFromGroup (objects x) (localFiles x) p (watcher x) in
      {| before := x;
         after := {| objects := objects x; localFiles := localFiles x; watcher := w |};
         emitted := signals |}
  | memberChanged heap files =>
      let '(w, signals) := checkAndEmitSignals heap files (watcher x) in
      {| before := x;
         after := {| objects := heap; localFiles := files; watcher := w |};
         emitted := signals |}
  end.

(** The steps of a run, first to last. *)
Fixpoint run `{Qt.Platform} (x : World) (events : list Event) : list Step :=
  match events with
  | [] => []
  | e :: rest => let st := step x e in st :: run (after st) rest
  end.


(** The cache holds the values recomputed from the objects, the files and
    the pruned member list. *)
Definition cacheIsFresh `{Qt.Platform} (x : World) : Prop :=
  let heap := objects x in
  let fs := localFiles x in
  let w := watcher x in
  _downloadables w = cleanUp heap (_downloadables w)
  ∧ _cachedDownloadablesWithFile w = downloadablesWithFile heap fs (_downloadables w)
  ∧ _cachedDownloading w = downloading heap (_downloadables w)
  ∧ _cachedFiles w = files_ heap fs (_downloadables w)
  ∧ _cachedHasFile w = hasFile heap fs (_downloadables w)
  ∧ _cachedUpdatable w = updatable heap fs (_downloadables w)
  ∧ _cachedUpdateSize w = updateSize heap fs (_downloadables w).

(** The derived property announced by a signal has the same value in both
    watchers. *)
Definition sameValue (w w' : t) (sig : Signal) : Prop :=
  match sig with
  | downloadablesWithFileChanged _ =>
      _cachedDownloadablesWithFile w' = _cachedDownloadablesWithFile w
  | downloadingChanged _ => _cachedDownloading w' = _cachedDownloading w
  | filesChanged _ => _cachedFiles w' = _cachedFiles w
  | hasFileChanged _ => _cachedHasFile w' = _cachedHasFile w
  | updatableChanged _ => _cachedUpdatable w' = _cachedUpdatable w
  | updateSizeChanged _ => _cachedUpdateSize w' = _cachedUpdateSize w
  end.

End Watcher.

(** ** Characters of a path *)

(** The character occurs in the string. *)
Fixpoint hasChar (c : ascii) (s : string) : bool :=
  match s with
  | EmptyString => false
  | String c' rest => Ascii.eqb c' c || hasChar c rest
  end.

(** ** The signals that reach the DataManager *)

Module Wiring.

(** The signals that the constructor and [deferredInitialization] connect
    to slots of the DataManager, the public slot [updateGeoMapList], and
    the arguments that the slots read from the clock. *)
Inductive Input :=
| autoUpdateTimer_timeout (now localOffset : Z)
| mapsJson_fileContentChanged (now : Z)
| mapsJson_error (message : string)
| settings_acceptedTermsChanged (accepted : bool)
| geoMaps_filesChanged
| call_updateGeoMapList
| qApp_aboutToQuit.

Section Deliver.

Context `{Qt.Platform}.

(** The slots that a signal is connected to, in the order of the [connect]
    statements. *)
Definition deliver (s : DataManager) (signal : Input) : DataManager :=
  match signal with
  | autoUpdateTimer_timeout now localOffset =>
      autoUpdateTimerTimeout now localOffset s
  | mapsJson_fileContentChanged now => mapsJsonFileContentChanged now s
  | mapsJson_error message => errorReceiver message s
  | settings_acceptedTermsChanged accepted => acceptedTermsChanged accepted s
  | geoMaps_filesChanged => localFileOfGeoMapChanged s
  | call_updateGeoMapList => updateGeoMapList s
  | qApp_aboutToQuit => cleanUp s
  end.

Definition deliverAll (s : DataManager) (signals : list Input) : DataManager :=
  foldl deliver s signals.

End Deliver.

(** The messages of the [error] signals among the outputs. *)
Definition errorsOf (out : list Output) : list string :=
  omap (λ o, match o with error message => Some message | _ => None end) out.

(** The messages of the download errors among the signals. *)
Definition downloadErrors (signals : list Input) : list string :=
  omap (λ signal, match signal with
                  | mapsJson_error message => Some message
                  | _ => None
                  end) signals.

End Wiring.

(** ** The constructor: correction of file names *)

(** [QFile::rename(oldName, newName)]: nothing happens when the file
    [oldName] does not exist or when a file [newName] exists already. *)
Definition rename (fs : gmap string File) (oldName newName : string)
  : gmap string File :=
  match fs !! oldName, fs !! newName with
  | Some f, None => <[newName := f]> (delete oldName fs)
  | _, _ => fs
  end.

(** The test of the constructor for a file name of an earlier version of
    the program. *)
Definition isOffending (filePath : string) : bool :=
  Qt.endsWith filePath ".geojson.geojson" || Qt.endsWith filePath ".mbtiles.mbtiles".

(** The name a file is renamed to: [offendingFile.section('.', 0, -2)]. *)
Definition correctedName (offendingFile : string) : string :=
  Qt.section "." 0 (-2) offendingFile.

Section Constructor.

Context `{Qt.Platform}.

Definition offendingFiles (fs : gmap string File) : list string :=
  filter (λ filePath, isOffending filePath = true) (filesBelow aviationMapsDir fs).

(** The first block of the constructor, on the file system. *)
Definition correctFileNames (fs : gmap string File) : gmap string File :=
  foldl (λ fs offendingFile, rename fs offendingFile (correctedName offendingFile))
        fs (offendingFiles fs).

End Constructor.

(** What the loop over the offending files has done to the file system
    [fs0] when the files [done] are worked off and the files [rest] are
    still to come. *)
Record RenameLoop (fs0 : gmap string File) (done rest : list string)
    (fs : gmap string File) : Prop := {
  rename_rest : ∀ q, q ∈ rest → fs !! q = fs0 !! q;
  rename_kept :
    ∀ path f, fs0 !! path = Some f →
      fs !! path = Some f
      ∨ (path ∈ done ∧ (correctedName path ∉ rest)
         ∧ fs !! correctedName path = Some f);
  rename_origin :
    ∀ path f, fs !! path = Some f →
      fs0 !! path = Some f
      ∨ ∃ q, q ∈ done ∧ correctedName q = path ∧ fs0 !! q = Some f;
  rename_moved :
    ∀ q, q ∈ done → fs0 !! correctedName q = None →
      fs !! correctedName q = fs0 !! q
}.

(** ** The three sub-groups *)

(** The sub-groups are parts of the umbrella group, and no Resource is in
    two of them. *)
Definition subGroupsSound (s : DataManager) : Prop :=
  (∀ p, p ∈ _aviationMaps s ∨ p ∈ _baseMaps s ∨ p ∈ _databases s →
        p ∈ _geoMaps s)
  ∧ (∀ p, ¬ (p ∈ _aviationMaps s ∧ p ∈ _baseMaps s))
  ∧ (∀ p, ¬ (p ∈ _aviationMaps s ∧ p ∈ _databases s))
  ∧ (∀ p, ¬ (p ∈ _baseMaps s ∧ p ∈ _databases s)).

(** ** Further states for the examples *)

Module Cases.

Import Qt Scenario.

#[local] Existing Instance examples.

Definition lakesEntry : QJsonValue := entry "europe/lakes.geojson" 1000 "20230101".

Definition orphanEntry : QJsonValue := entry "europe/orphan.mbtiles" 1000 "20230101".

(** The map "lakes" is installed; then a manifest arrives that offers the
    base map "orphan" instead. *)
Definition lakesReplaced : DataManager :=
  setFiles (withManifest "orphanOffered" (<[lakesPath := file "old data"]> ∅))
    lakesInstalled.

(** The map "lakes" was offered and never installed. *)
Definition lakesOffered : DataManager :=
  readGeoMapListFromJSONFile (fresh (withManifest "lakes" ∅)).

(** Then a manifest arrives that offers the base map "orphan" instead. *)
Definition offerReplaced : DataManager :=
  setFiles (withManifest "orphanOffered" ∅) lakesOffered.

(** Or a manifest arrives that offers nothing. *)
Definition offerWithdrawn : DataManager :=
  setFiles (withManifest "noMaps" ∅) lakesOffered.



(** A file system with a file of an earlier version of the program. *)
Definition doubledPath : string := "/data/aviation_maps/europe/lakes.geojson.geojson".


End Cases.

(** * Properties *)

(** ** The string functions on the paths of the manifest *)

Example section_stem : Qt.section "." (-2) (-2) "europe/lakes.geojson" = "europe/lakes".
Proof. reflexivity. Qed.
Example section_name : Qt.section "/" (-1) (-1) "europe/lakes" = "lakes".
Proof. reflexivity. Qed.
Example section_cat : Qt.section "/" (-2) (-2) "europe/lakes" = "europe".
Proof. reflexivity. Qed.
Example section_nodot : Qt.section "." (-2) (-2) "lakes" = "".
Proof. reflexivity. Qed.
Example section_first : Qt.section "." 0 0 "sub/orphan.mbtiles" = "sub/orphan".
Proof. reflexivity. Qed.
Example section_range : Qt.section "." 0 (-2) "a.b.c" = "a.b".
Proof. reflexivity. Qed.
Example remove_all : Qt.remove "ab" "xabyabab" = "xy".
Proof. reflexivity. Qed.
Example endsWith_ex : Qt.endsWith "a/lakes.geojson" "geojson" = true.
Proof. reflexivity. Qed.

(** ** Loops *)

Lemma foldl_invariant {A B} (P : A → Prop) (f : A → B → A) (l : list B) (a : A) :
  P a → (∀ a x, P a → x ∈ l → P (f a x)) → P (foldl f a l).
Proof.
  revert a. induction l as [|x l IH]; intros a Ha Hstep; simpl; [done|].
  apply IH.
  - apply Hstep; [done | left].
  - intros a' y Ha' Hy. apply Hstep; [done | by right].
Qed.

(** ** The reconciliation leaves the scheduling state alone *)

Section Frame.

Context `{Qt.Platform}.

Lemma sameControl_refl s : sameControl s s.
Proof. by repeat split. Qed.

Lemma sameControl_trans s1 s2 s3 :
  sameControl s1 s2 → sameControl s2 s3 → sameControl s1 s3.
Proof.
  unfold sameControl. intros (?&?&?&?&?&?&?) (?&?&?&?&?&?&?).
  repeat split; congruence.
Qed.

Lemma sameControl_setHeap h n s : sameControl s (setHeap h n s).
Proof. by repeat split. Qed.

Lemma sameControl_setGroups g a b d s : sameControl s (setGroups g a b d s).
Proof. by repeat split. Qed.

Lemma sameControl_createFromEntry baseURL map s :
  sameControl s (createFromEntry baseURL map s).
Proof.
  unfold createFromEntry, new. cbn zeta.
  repeat case_match; by repeat split.
Qed.

Lemma sameControl_reconcileEntry baseURL acc map :
  sameControl acc.1 (reconcileEntry baseURL acc map).1.
Proof.
  destruct acc as [s oldMaps]. unfold reconcileEntry.
  destruct (findByName _ _ _); simpl.
  - by repeat split.
  - apply sameControl_createFromEntry.
Qed.

Lemma sameControl_reconcileManifest doc s :
  sameControl s (reconcileManifest doc s).1.
Proof.
  unfold reconcileManifest.
  apply (foldl_invariant (λ acc, sameControl s acc.1)).
  - apply sameControl_refl.
  - intros acc map Hacc _. eapply sameControl_trans; [done|].
    apply sameControl_reconcileEntry.
Qed.

Lemma sameControl_deleteIfNoFile s p : sameControl s (deleteIfNoFile s p).
Proof. unfold deleteIfNoFile. repeat case_match; by repeat split. Qed.

Lemma sameControl_deleteLeftovers acc : sameControl acc.1 (deleteLeftovers acc).
Proof.
  unfold deleteLeftovers.
  apply (foldl_invariant (λ s', sameControl acc.1 s')).
  - apply sameControl_refl.
  - intros s p Hs _. eapply sameControl_trans; [done|].
    apply sameControl_deleteIfNoFile.
Qed.

Lemma sameControl_addUnattached s path : sameControl s (addUnattached s path).
Proof. by repeat split. Qed.

Lemma sameControl_addUnattachedFiles s : sameControl s (addUnattachedFiles s).
Proof.
  unfold addUnattachedFiles.
  apply (foldl_invariant (λ s', sameControl s s')).
  - apply sameControl_refl.
  - intros s' p Hs _. eapply sameControl_trans; [done|].
    apply sameControl_addUnattached.
Qed.

Lemma sameControl_afterManifest doc s : sameControl s (afterManifest doc s).
Proof.
  eapply sameControl_trans; [apply sameControl_reconcileManifest|].
  apply sameControl_deleteLeftovers.
Qed.

Lemma readGeoMapListFromJSONFile_parsed s doc :
  parsedManifest s = Some doc →
  readGeoMapListFromJSONFile s = addUnattachedFiles (afterManifest doc s).
Proof.
  unfold parsedManifest, readGeoMapListFromJSONFile.
  destruct (files s !! mapsJsonFileName); [|done].
  by intros ->.
Qed.

Lemma readGeoMapListFromJSONFile_unparsed s :
  parsedManifest s = None → readGeoMapListFromJSONFile s = s.
Proof.
  unfold parsedManifest, readGeoMapListFromJSONFile.
  destruct (files s !! mapsJsonFileName); [|done].
  by intros ->.
Qed.

Lemma sameControl_readGeoMapListFromJSONFile s :
  sameControl s (readGeoMapListFromJSONFile s).
Proof.
  destruct (parsedManifest s) as [doc|] eqn:Hdoc.
  - rewrite (readGeoMapListFromJSONFile_parsed _ _ Hdoc).
    eapply sameControl_trans; [apply sameControl_afterManifest|].
    apply sameControl_addUnattachedFiles.
  - rewrite (readGeoMapListFromJSONFile_unparsed _ Hdoc).
    apply sameControl_refl.
Qed.

End Frame.

(** ** Member lists and searches *)

Section Lists.

Context `{Qt.Platform}.

Lemma elem_of_downloadables (heap : gmap nat Downloadable) (g : list nat) (p : nat) :
  p ∈ Group.downloadables heap g ↔ p ∈ g ∧ is_Some (heap !! p).
Proof.
  unfold Group.downloadables.
  rewrite merge_sort_Permutation, list_elem_of_filter. tauto.
Qed.

Lemma elem_of_geoMapsDownloadables s p :
  p ∈ geoMapsDownloadables s ↔ p ∈ _geoMaps s ∧ is_Some (heap s !! p).
Proof. apply elem_of_downloadables. Qed.

Lemma findByName_Some heap oldMaps name p :
  findByName heap oldMaps name = Some p →
  p ∈ oldMaps ∧ ∃ d, heap !! p = Some d ∧ objectName d = name.
Proof.
  induction oldMaps as [|q oldMaps IH]; simpl; [done|].
  destruct (heap !! q) as [d|] eqn:Hq.
  - destruct (String.eqb_spec (objectName d) name) as [Heq|Hne].
    + intros [= <-]. split; [left | eauto].
    + intros Hfind. destruct (IH Hfind) as [? ?]. split; [by right | done].
  - intros Hfind. destruct (IH Hfind) as [? ?]. split; [by right | done].
Qed.

Lemma findByName_None heap oldMaps name p d :
  findByName heap oldMaps name = None →
  p ∈ oldMaps → heap !! p = Some d → objectName d ≠ name.
Proof.
  induction oldMaps as [|q oldMaps IH]; simpl; intros Hfind Hin Hp.
  - by apply elem_of_nil in Hin.
  - apply elem_of_cons in Hin as [->|Hin].
    + rewrite Hp in Hfind.
      by destruct (String.eqb_spec (objectName d) name).
    + destruct (heap !! q) as [d'|]; [|by apply IH].
      destruct (String.eqb (objectName d') name); [done | by apply IH].
Qed.


Lemma isAttachedToAviationMap_true heap geoMaps filePath :
  isAttachedToAviationMap heap geoMaps filePath = true
  ↔ ∃ p d, p ∈ geoMaps ∧ heap !! p = Some d ∧ fileName d = filePath.
Proof.
  induction geoMaps as [|q geoMaps IH]; simpl.
  - split; [done|]. intros (p & d & Hin & _). by apply elem_of_nil in Hin.
  - destruct (heap !! q) as [d|] eqn:Hq.
    + destruct (String.eqb_spec (fileName d) filePath) as [Heq|Hne].
      * split; [|done]. intros _. exists q, d. split; [left | done].
      * rewrite IH. split.
        -- intros (p & d' & ? & ? & ?). exists p, d'. split; [by right | done].
        -- intros (p & d' & Hin & Hp & Hfile).
           apply elem_of_cons in Hin as [->|Hin]; [congruence|].
           by exists p, d'.
    + rewrite IH. split.
      * intros (p & d' & ? & ? & ?). exists p, d'. split; [by right | done].
      * intros (p & d' & Hin & Hp & Hfile).
        apply elem_of_cons in Hin as [->|Hin]; [congruence|].
        by exists p, d'.
Qed.

Lemma elem_of_removeAll (mapPtr q : nat) oldMaps :
  q ∈ removeAll mapPtr oldMaps ↔ q ≠ mapPtr ∧ q ∈ oldMaps.
Proof. unfold removeAll. by rewrite list_elem_of_filter. Qed.

Lemma addToGroup_new (p : nat) (g : list nat) :
  p ∉ g → Group.addToGroup p g = g ++ [p].
Proof. intros Hp. unfold Group.addToGroup. by rewrite decide_False. Qed.

Lemma setHeap_same s : setHeap (heap s) (nextPtr s) s = s.
Proof. by destruct s. Qed.

Lemma wellFormed_fresh s :
  wellFormed s → heap s !! nextPtr s = None ∧ nextPtr s ∉ _geoMaps s.
Proof.
  intros [Hheap Hgroup]. split.
  - destruct (heap s !! nextPtr s) as [d|] eqn:Hp; [|done].
    apply Hheap in Hp. lia.
  - intros Hin. rewrite Forall_forall in Hgroup. apply Hgroup in Hin. lia.
Qed.

Lemma wellFormed_lookup s p d :
  wellFormed s → heap s !! p = Some d → p < nextPtr s.
Proof. intros [Hheap _] Hp. by apply Hheap in Hp. Qed.

End Lists.

(** ** One round of the loop over the manifest *)

Section Round.

Context `{Qt.Platform}.

Lemma updateExisting_heap p map s :
  heap (updateExisting p map s) = alter (withEntry map) p (heap s).
Proof.
  unfold updateExisting, update. simpl.
  by rewrite alter_alter_eq.
Qed.

Lemma updateExisting_rest p map s :
  nextPtr (updateExisting p map s) = nextPtr s
  ∧ _geoMaps (updateExisting p map s) = _geoMaps s
  ∧ _aviationMaps (updateExisting p map s) = _aviationMaps s
  ∧ _baseMaps (updateExisting p map s) = _baseMaps s
  ∧ _databases (updateExisting p map s) = _databases s.
Proof. done. Qed.

Lemma createFromEntry_heap baseURL map s :
  heap (createFromEntry baseURL map s)
  = <[nextPtr s := createdObject baseURL map]> (heap s).
Proof.
  unfold createFromEntry, new. cbn zeta.
  assert (∀ s' : DataManager,
            heap (if Qt.endsWith (Qt.writableLocation +:+ "/aviation_maps/" +:+ mapFileNameOf map) "txt"
                  then databasesAddToGroup (nextPtr s) s' else s') = heap s') as Htxt
    by (intros; by case_match).
  rewrite Htxt.
  repeat case_match; simpl; rewrite !alter_insert_eq; done.
Qed.

Lemma createFromEntry_nextPtr baseURL map s :
  nextPtr (createFromEntry baseURL map s) = S (nextPtr s).
Proof. unfold createFromEntry, new. cbn zeta. by repeat case_match. Qed.

Lemma createFromEntry_geoMaps baseURL map s :
  _geoMaps (createFromEntry baseURL map s)
  = Group.addToGroup (nextPtr s) (_geoMaps s).
Proof. unfold createFromEntry, new. cbn zeta. by repeat case_match. Qed.

End Round.

(** ** The loop over the manifest *)

Section ManifestLoop.

Context `{Qt.Platform}.

Lemma wellFormed_intro s :
  (∀ p d, heap s !! p = Some d → p < nextPtr s) →
  (∀ p, p ∈ _geoMaps s → p < nextPtr s) →
  wellFormed s.
Proof.
  intros Hheap Hgroup. split.
  - intros p d Hp. by eapply Hheap.
  - apply Forall_forall. intros p Hp. by apply Hgroup.
Qed.

Lemma wellFormed_member s p :
  wellFormed s → p ∈ _geoMaps s → p < nextPtr s.
Proof. intros [_ Hgroup] Hp. rewrite Forall_forall in Hgroup. by apply Hgroup. Qed.

Lemma loopReady_start s :
  wellFormed s → loopReady s (geoMapsDownloadables s).
Proof.
  intros Hwf. split; [done|].
  intros p Hp. by apply elem_of_geoMapsDownloadables in Hp.
Qed.

Lemma loopReady_below s oldMaps p :
  loopReady s oldMaps → p ∈ oldMaps → p < nextPtr s.
Proof.
  intros [Hwf Hold] Hp. destruct (Hold p Hp) as [_ [d Hd]].
  by eapply wellFormed_lookup.
Qed.

(** A round that re-uses an old map. *)
Lemma round_found baseURL s oldMaps map p :
  loopReady s oldMaps →
  findByName (heap s) oldMaps (entryName map) = Some p →
  ManifestLoop baseURL s oldMaps [map]
    (updateExisting p map s) (removeAll p oldMaps) [p]
  ∧ loopReady (updateExisting p map s) (removeAll p oldMaps).
Proof.
  intros Hready Hfind.
  pose proof Hready as [Hwf Hold].
  apply findByName_Some in Hfind as [Hin (d & Hd & Hname)].
  pose proof (wellFormed_lookup _ _ _ Hwf Hd) as Hbelow.
  split.
  - split.
    + by repeat split.
    + done.
    + intros q. simpl. rewrite list_elem_of_singleton. split; [by left|].
      intros [?|[-> ?]]; [done | lia].
    + intros q. rewrite elem_of_removeAll, list_elem_of_singleton. tauto.
    + intros q Hq. rewrite updateExisting_heap.
      apply lookup_alter_ne. rewrite list_elem_of_singleton in Hq. congruence.
    + intros q Hq. apply list_elem_of_singleton in Hq as ->. by left.
    + apply NoDup_singleton.
    + done.
    + intros i q map' Hq Hmap.
      apply list_lookup_singleton_Some in Hq as [-> <-].
      apply list_lookup_singleton_Some in Hmap as [_ <-].
      unfold entryObject. rewrite Hd, updateExisting_heap.
      rewrite lookup_alter_eq, Hd. done.
    + intros i q map' Hq _ Hle.
      apply list_lookup_singleton_Some in Hq as [_ <-]. lia.
  - split.
    + apply wellFormed_intro.
      * intros q d' Hq. rewrite updateExisting_heap in Hq.
        apply lookup_alter_Some in Hq as [(-> & ? & ? & ?)|[_ Hq]].
        -- done.
        -- apply (wellFormed_lookup s _ _ Hwf Hq).
      * intros q Hq. apply (wellFormed_member s _ Hwf Hq).
    + intros q Hq. apply elem_of_removeAll in Hq as [Hne Hq].
      destruct (Hold q Hq) as [? [d' Hd']]. split; [done|].
      rewrite updateExisting_heap, lookup_alter_ne by done. eauto.
Qed.

(** A round that constructs a new object. *)
Lemma round_created baseURL s oldMaps map :
  loopReady s oldMaps →
  findByName (heap s) oldMaps (entryName map) = None →
  ManifestLoop baseURL s oldMaps [map]
    (createFromEntry baseURL map s) oldMaps [nextPtr s]
  ∧ loopReady (createFromEntry baseURL map s) oldMaps.
Proof.
  intros Hready Hfind.
  pose proof Hready as [Hwf Hold].
  destruct (wellFormed_fresh _ Hwf) as [Hnone Hnotin].
  assert (nextPtr s ∉ oldMaps) as Hnew.
  { intros Hin. apply (loopReady_below _ _ _ Hready) in Hin. lia. }
  split.
  - split.
    + apply sameControl_createFromEntry.
    + rewrite createFromEntry_nextPtr. lia.
    + intros q. rewrite createFromEntry_geoMaps, addToGroup_new by done.
      rewrite elem_of_app, !list_elem_of_singleton. split.
      * intros [?| ->]; [by left | right; split; [done | lia]].
      * intros [?|[-> _]]; [by left | by right].
    + intros q. rewrite list_elem_of_singleton. split; [|tauto].
      intros Hq. split; [done|]. congruence.
    + intros q Hq. rewrite createFromEntry_heap.
      apply lookup_insert_ne. rewrite list_elem_of_singleton in Hq. congruence.
    + intros q Hq. apply list_elem_of_singleton in Hq as ->.
      right. rewrite createFromEntry_nextPtr. lia.
    + apply NoDup_singleton.
    + done.
    + intros i q map' Hq Hmap.
      apply list_lookup_singleton_Some in Hq as [-> <-].
      apply list_lookup_singleton_Some in Hmap as [_ <-].
      unfold entryObject. rewrite Hnone, createFromEntry_heap.
      by rewrite lookup_insert_eq.
    + intros i q map' _ Hmap _ q' d Hq' Hd.
      apply list_lookup_singleton_Some in Hmap as [_ <-].
      by eapply findByName_None.
  - split.
    + apply wellFormed_intro.
      * intros q d Hq. rewrite createFromEntry_heap in Hq.
        rewrite createFromEntry_nextPtr.
        apply lookup_insert_Some in Hq as [[<- _]|[_ Hq]]; [lia|].
        apply (wellFormed_lookup _ _ _ Hwf) in Hq. lia.
      * intros q. rewrite createFromEntry_geoMaps, addToGroup_new by done.
        rewrite createFromEntry_nextPtr, elem_of_app, list_elem_of_singleton.
        intros [Hq| ->]; [|lia].
        apply (wellFormed_member _ _ Hwf) in Hq. lia.
    + intros q Hq. destruct (Hold q Hq) as [? [d Hd]].
      rewrite createFromEntry_geoMaps, addToGroup_new by done.
      split; [apply elem_of_app; by left|].
      rewrite createFromEntry_heap, lookup_insert_ne by congruence. eauto.
Qed.

Lemma round_spec baseURL s oldMaps map :
  loopReady s oldMaps →
  ManifestLoop baseURL s oldMaps [map]
    (reconcileEntry baseURL (s, oldMaps) map).1
    (reconcileEntry baseURL (s, oldMaps) map).2
    [entryPtr (s, oldMaps) map]
  ∧ loopReady (reconcileEntry baseURL (s, oldMaps) map).1
              (reconcileEntry baseURL (s, oldMaps) map).2.
Proof.
  intros Hready. unfold reconcileEntry, entryPtr. simpl.
  destruct (findByName (heap s) oldMaps (entryName map)) as [p|] eqn:Hfind; simpl.
  - by apply round_found.
  - by apply round_created.
Qed.

(** A round followed by more rounds. *)
Lemma ManifestLoop_cons baseURL s oldMaps map s1 oldMaps1 p1
    entries s' oldMaps' ptrs :
  loopReady s oldMaps →
  ManifestLoop baseURL s oldMaps [map] s1 oldMaps1 [p1] →
  ManifestLoop baseURL s1 oldMaps1 entries s' oldMaps' ptrs →
  ManifestLoop baseURL s oldMaps (map :: entries) s' oldMaps' (p1 :: ptrs).
Proof.
  intros Hready [C1 N1 G1 O1 U1 R1 _ _ B1 F1] [C2 N2 G2 O2 U2 R2 D2 L2 B2 F2].
  assert (∀ q, q ∈ oldMaps1 → q < nextPtr s) as Hold1.
  { intros q Hq. apply O1 in Hq as [Hq _]. by eapply loopReady_below. }
  assert (p1 ∈ oldMaps ∨ nextPtr s ≤ p1 < nextPtr s1) as Hp1
    by (apply R1; left).
  assert (p1 ∉ ptrs) as Hfresh.
  { intros Hin. destruct (R2 _ Hin) as [Hq|Hq].
    - apply O1 in Hq as [_ Hq]. apply Hq. left.
    - destruct Hp1 as [Hp1|Hp1]; [|lia].
      apply (loopReady_below _ _ _ Hready) in Hp1. lia. }
  split.
  - by eapply sameControl_trans.
  - lia.
  - intros q. rewrite G2, G1, list_elem_of_singleton, elem_of_cons. split.
    + intros [[?|[-> ?]]|[Hin ?]]; [by left | right; split; [by left | done] |].
      right. split; [by right | lia].
    + intros [?|[[-> |Hin] Hle]]; [by left; left | left; right; by split |].
      right. split; [done|].
      destruct (R2 _ Hin) as [Hq|Hq]; [|lia].
      apply Hold1 in Hq. lia.
  - intros q. rewrite O2, O1, list_elem_of_singleton, not_elem_of_cons. tauto.
  - intros q Hq. apply not_elem_of_cons in Hq as [Hne Hq].
    rewrite U2 by done. apply U1. by rewrite list_elem_of_singleton.
  - intros q Hq. apply elem_of_cons in Hq as [-> |Hq].
    + destruct Hp1 as [?|?]; [by left | right; lia].
    + destruct (R2 _ Hq) as [Hq'|Hq']; [|right; lia].
      left. by apply O1 in Hq' as [? _].
  - by constructor.
  - simpl. by rewrite L2.
  - intros [|i] q map' Hq Hmap; simplify_eq/=.
    + destruct (B1 0 q map') as [Hobj Hname]; [done..|].
      split; [|done]. by rewrite U2.
    + destruct (B2 i q map' Hq Hmap) as [Hobj Hname].
      assert (heap s1 !! q = heap s !! q) as Hsame.
      { apply U1. rewrite list_elem_of_singleton. intros ->.
        apply Hfresh. by eapply list_elem_of_lookup_2. }
      unfold entryObject in *. by rewrite <- Hsame.
  - intros [|i] q map' Hq Hmap Hle q' d Hq' Hd; simplify_eq/=.
    + apply O2 in Hq' as [Hq' _]. by eapply (F1 0).
    + assert (q' ∈ oldMaps1) as Hq1 by (by apply O2 in Hq' as [? _]).
      eapply (F2 i q map' Hq Hmap); [|done|].
      * destruct (R2 q) as [Hold|?]; [by eapply list_elem_of_lookup_2| |lia].
        apply Hold1 in Hold. lia.
      * rewrite U1; [done|]. rewrite list_elem_of_singleton.
        apply O1 in Hq1 as [_ Hq1]. by rewrite list_elem_of_singleton in Hq1.
Qed.

Lemma ManifestLoop_nil baseURL s oldMaps :
  ManifestLoop baseURL s oldMaps [] s oldMaps [].
Proof.
  split.
  - apply sameControl_refl.
  - done.
  - intros q. split; [by left|]. intros [?|[Hq _]]; [done|].
    by apply elem_of_nil in Hq.
  - intros q. split; [|tauto]. intros ?. split; [done|]. apply not_elem_of_nil.
  - done.
  - intros q Hq. by apply elem_of_nil in Hq.
  - constructor.
  - done.
  - intros i q map Hq. by rewrite lookup_nil in Hq.
  - intros i q map Hq. by rewrite lookup_nil in Hq.
Qed.

Lemma manifestLoop_spec baseURL entries s oldMaps :
  loopReady s oldMaps →
  ManifestLoop baseURL s oldMaps entries
    (foldl (reconcileEntry baseURL) (s, oldMaps) entries).1
    (foldl (reconcileEntry baseURL) (s, oldMaps) entries).2
    (entryPtrs baseURL (s, oldMaps) entries)
  ∧ loopReady (foldl (reconcileEntry baseURL) (s, oldMaps) entries).1
              (foldl (reconcileEntry baseURL) (s, oldMaps) entries).2.
Proof.
  revert s oldMaps. induction entries as [|map entries IH]; intros s oldMaps Hready.
  - simpl. split; [apply ManifestLoop_nil | done].
  - cbn [foldl entryPtrs].
    destruct (round_spec baseURL s oldMaps map Hready) as [Hround Hready1].
    destruct (reconcileEntry baseURL (s, oldMaps) map) as [s1 oldMaps1] eqn:Hstep.
    destruct (IH s1 oldMaps1 Hready1) as [Hloop Hready'].
    split; [|done].
    eapply ManifestLoop_cons; [done | apply Hround | apply Hloop].
Qed.

End ManifestLoop.

(** ** The loop over the leftover objects *)

Section Leftovers.

Context `{Qt.Platform}.

Lemma deleteIfNoFile_heap s q p :
  heap (deleteIfNoFile s q) !! p = survivor (files s) [q] p (heap s !! p).
Proof.
  unfold deleteIfNoFile, survivor.
  destruct (heap s !! q) as [dq|] eqn:Hq.
  - destruct (hasFile (files s) dq) eqn:Hfile.
    + destruct (heap s !! p) as [d|] eqn:Hp; [|done].
      case_decide as Hin; [|done].
      apply list_elem_of_singleton in Hin as ->.
      assert (d = dq) as -> by congruence. by rewrite Hfile.
    + simpl. destruct (decide (p = q)) as [->|Hne].
      * rewrite lookup_delete_eq, Hq.
        rewrite decide_True by (by apply list_elem_of_singleton).
        by rewrite Hfile.
      * rewrite lookup_delete_ne by done.
        destruct (heap s !! p); [|done].
        rewrite decide_False; [done|]. by rewrite list_elem_of_singleton.
  - destruct (heap s !! p) as [d|] eqn:Hp; [|done].
    case_decide as Hin; [|done].
    apply list_elem_of_singleton in Hin as ->. congruence.
Qed.

Lemma deleteIfNoFile_rest s q :
  nextPtr (deleteIfNoFile s q) = nextPtr s
  ∧ _geoMaps (deleteIfNoFile s q) = _geoMaps s
  ∧ files (deleteIfNoFile s q) = files s.
Proof. unfold deleteIfNoFile. by repeat case_match. Qed.

Lemma survivor_cons fs q leftovers p o :
  survivor fs leftovers p (survivor fs [q] p o) = survivor fs (q :: leftovers) p o.
Proof.
  unfold survivor. destruct o as [d|]; [|done].
  destruct (decide (p ∈ [q])) as [Hq|Hq].
  - apply list_elem_of_singleton in Hq as ->.
    rewrite (decide_True (P := q ∈ q :: leftovers)) by left.
    destruct (hasFile fs d) eqn:Hfile; [|done].
    case_decide; by rewrite ?Hfile.
  - rewrite list_elem_of_singleton in Hq.
    destruct (decide (p ∈ leftovers)) as [Hin|Hin].
    + by rewrite decide_True by (by right).
    + rewrite decide_False; [done|]. rewrite elem_of_cons. tauto.
Qed.

Lemma deleteLeftovers_spec leftovers s :
  let s' := foldl deleteIfNoFile s leftovers in
  nextPtr s' = nextPtr s
  ∧ _geoMaps s' = _geoMaps s
  ∧ files s' = files s
  ∧ ∀ p, heap s' !! p = survivor (files s) leftovers p (heap s !! p).
Proof.
  revert s. induction leftovers as [|q leftovers IH]; intros s; simpl.
  - repeat split. intros p. unfold survivor. destruct (heap s !! p); [|done].
    by rewrite decide_False by apply not_elem_of_nil.
  - destruct (IH (deleteIfNoFile s q)) as (Hn & Hg & Hf & Hh).
    destruct (deleteIfNoFile_rest s q) as (Hn1 & Hg1 & Hf1).
    repeat split; [congruence..|].
    intros p. rewrite Hh, Hf1, deleteIfNoFile_heap. apply survivor_cons.
Qed.

Lemma survivor_Some fs leftovers p o d :
  survivor fs leftovers p o = Some d →
  o = Some d ∧ (p ∈ leftovers → hasFile fs d = true).
Proof.
  unfold survivor. destruct o as [d'|]; [|done].
  case_decide as Hin.
  - destruct (hasFile fs d') eqn:Hfile; [|done].
    intros [= <-]. done.
  - intros [= <-]. done.
Qed.

End Leftovers.

(** ** The loop over the unattached files *)

Section Unattached.

Context `{Qt.Platform}.

Lemma addUnattached_heap s path :
  heap (addUnattached s path) = <[nextPtr s := unattachedObject path]> (heap s).
Proof.
  unfold addUnattached, new, update. simpl.
  by rewrite !alter_insert_eq.
Qed.

Lemma addUnattached_rest s path :
  nextPtr (addUnattached s path) = S (nextPtr s)
  ∧ _geoMaps (addUnattached s path) = Group.addToGroup (nextPtr s) (_geoMaps s)
  ∧ files (addUnattached s path) = files s.
Proof. done. Qed.

Lemma addUnattachedFiles_spec paths s :
  wellFormed s →
  let s' := foldl addUnattached s paths in
  wellFormed s'
  ∧ nextPtr s' = nextPtr s + length paths
  ∧ _geoMaps s' = _geoMaps s ++ seq (nextPtr s) (length paths)
  ∧ files s' = files s
  ∧ (∀ p, p < nextPtr s → heap s' !! p = heap s !! p)
  ∧ (∀ i, heap s' !! (nextPtr s + i) = unattachedObject <$> paths !! i).
Proof.
  revert s. induction paths as [|path paths IH]; intros s Hwf; simpl.
  - split; [done|]. split; [lia|]. split; [by rewrite app_nil_r|].
    split; [done|]. split; [done|].
    intros i.
    destruct (heap s !! (nextPtr s + i)) as [d|] eqn:Hd; [|done].
    apply (wellFormed_lookup _ _ _ Hwf) in Hd. lia.
  - destruct (wellFormed_fresh _ Hwf) as [Hnone Hnotin].
    destruct (addUnattached_rest s path) as (Hn1 & Hg1 & Hf1).
    assert (wellFormed (addUnattached s path)) as Hwf1.
    { apply wellFormed_intro.
      - intros q d. rewrite addUnattached_heap, Hn1.
        intros Hq. apply lookup_insert_Some in Hq as [[<- _]|[_ Hq]]; [lia|].
        apply (wellFormed_lookup _ _ _ Hwf) in Hq. lia.
      - intros q. rewrite Hg1, Hn1, addToGroup_new by done.
        rewrite elem_of_app, list_elem_of_singleton.
        intros [Hq| ->]; [|lia].
        apply (wellFormed_member _ _ Hwf) in Hq. lia. }
    destruct (IH _ Hwf1) as (Hwf' & Hn & Hg & Hf & Hold & Hnew).
    split; [done|]. split; [rewrite Hn, Hn1; lia|].
    split.
    { rewrite Hg, Hg1, Hn1, addToGroup_new by done.
      by rewrite <- app_assoc. }
    split; [congruence|]. split.
    + intros p Hp. rewrite Hold by (rewrite Hn1; lia).
      rewrite addUnattached_heap. apply lookup_insert_ne. lia.
    + intros [|i].
      * rewrite Nat.add_0_r. simpl. rewrite Hold by (rewrite Hn1; lia).
        rewrite addUnattached_heap. apply lookup_insert_eq.
      * simpl. rewrite <- (Hnew i), Hn1. f_equal. lia.
Qed.

End Unattached.

(** ** The whole pass *)

Section Pass.

Context `{Qt.Platform}.

Variable s : DataManager.
Variable doc : Qt.QJsonValue.
Hypothesis Hwf : wellFormed s.

Let baseURL := baseURLOf doc.
Let entries := manifestEntries doc.
Let ptrs := manifestPtrs doc s.
Let sm := (reconcileManifest doc s).1.
Let oldMaps' := (reconcileManifest doc s).2.
Let s2 := afterManifest doc s.
Let paths := unattachedFiles s2.
Let s' := addUnattachedFiles s2.

Lemma reconcileManifest_spec :
  ManifestLoop baseURL s (geoMapsDownloadables s) entries sm oldMaps' ptrs
  ∧ loopReady sm oldMaps'.
Proof.
  apply manifestLoop_spec. by apply loopReady_start.
Qed.

Lemma afterManifest_spec :
  nextPtr s2 = nextPtr sm
  ∧ _geoMaps s2 = _geoMaps sm
  ∧ files s2 = files s
  ∧ ∀ p, heap s2 !! p = survivor (files s) oldMaps' p (heap sm !! p).
Proof.
  destruct (deleteLeftovers_spec oldMaps' sm) as (Hn & Hg & Hf & Hh).
  destruct reconcileManifest_spec as [[(_&_&_&_&Hfiles&_) _ _ _ _ _ _ _ _ _] _].
  split; [done|]. split; [done|]. split; [by rewrite <- Hfiles|].
  intros p. rewrite <- Hfiles. apply Hh.
Qed.

Lemma afterManifest_wellFormed : wellFormed s2.
Proof.
  destruct reconcileManifest_spec as [_ [Hwfm _]].
  destruct afterManifest_spec as (Hn & Hg & _ & Hh).
  apply wellFormed_intro.
  - intros p d Hp. rewrite Hh in Hp. apply survivor_Some in Hp as [Hp _].
    rewrite Hn. by eapply wellFormed_lookup.
  - intros p. rewrite Hg, Hn. by apply wellFormed_member.
Qed.

Lemma pass_spec :
  wellFormed s'
  ∧ nextPtr s' = nextPtr s2 + length paths
  ∧ _geoMaps s' = _geoMaps s2 ++ seq (nextPtr s2) (length paths)
  ∧ files s' = files s
  ∧ (∀ p, p < nextPtr s2 → heap s' !! p = heap s2 !! p)
  ∧ (∀ i, heap s' !! (nextPtr s2 + i) = unattachedObject <$> paths !! i).
Proof.
  destruct (addUnattachedFiles_spec paths s2 afterManifest_wellFormed)
    as (Hwf' & Hn & Hg & Hf & Hold & Hnew).
  destruct afterManifest_spec as (_ & _ & Hf2 & _).
  split; [exact Hwf'|]. split; [exact Hn|]. split; [exact Hg|].
  split; [exact (eq_trans Hf Hf2)|]. split; [exact Hold | exact Hnew].
Qed.

(** Pointers of the entries are members of the group after the loop. *)
Lemma ptrs_member p : p ∈ ptrs → p ∈ _geoMaps sm.
Proof.
  destruct reconcileManifest_spec as [[_ _ G _ _ R _ _ _ _] _].
  intros Hp. apply G. destruct (R p Hp) as [Hold|Hnew].
  - left. by apply elem_of_geoMapsDownloadables in Hold as [? _].
  - right. split; [done | lia].
Qed.

(** The object of an entry is in the group after the pass, with the
    remote file information of the entry. *)
Lemma entry_member i map :
  entries !! i = Some map →
  ∃ p, ptrs !! i = Some p
       ∧ p ∈ _geoMaps s'
       ∧ heap s' !! p = Some (entryObject baseURL (heap s) p map)
       ∧ objectName (entryObject baseURL (heap s) p map) = entryName map.
Proof.
  intros Hmap.
  destruct reconcileManifest_spec as [[_ N G O U R D L B _] [Hwfm _]].
  destruct afterManifest_spec as (Hn2 & Hg2 & _ & Hh2).
  destruct pass_spec as (_ & _ & Hg' & _ & Hold & _).
  destruct (lookup_lt_is_Some_2 ptrs i) as [p Hp].
  { rewrite L. by eapply lookup_lt_Some. }
  destruct (B i p map Hp Hmap) as [Hobj Hname].
  assert (p ∈ ptrs) as Hin by (by eapply list_elem_of_lookup_2).
  exists p. split; [done|]. split.
  { rewrite Hg', Hg2. apply elem_of_app. left. by apply ptrs_member. }
  split; [|done].
  rewrite Hold by (rewrite Hn2; by eapply wellFormed_lookup).
  rewrite Hh2, Hobj. unfold survivor.
  rewrite decide_False; [done|]. rewrite O. tauto.
Qed.

(** An old map with a local file that no entry re-uses is in the group
    after the pass, unchanged. *)
Lemma retained_member p d :
  p ∈ _geoMaps s → heap s !! p = Some d → p ∉ ptrs →
  hasFile (files s) d = true →
  p ∈ _geoMaps s' ∧ heap s' !! p = Some d.
Proof.
  intros Hin Hp Hnot Hfile.
  destruct reconcileManifest_spec as [[_ N G O U R D L B _] [Hwfm _]].
  destruct afterManifest_spec as (Hn2 & Hg2 & _ & Hh2).
  destruct pass_spec as (_ & _ & Hg' & _ & Hold & _).
  split.
  - rewrite Hg', Hg2. apply elem_of_app. left. apply G. by left.
  - rewrite Hold.
    + rewrite Hh2, U, Hp by done. unfold survivor. rewrite Hfile. by case_decide.
    + rewrite Hn2. apply (wellFormed_lookup _ _ _ Hwf) in Hp. lia.
Qed.


(** Every Resource of the group after the pass has one of the four
    origins. *)
Lemma member_origin p d :
  p ∈ _geoMaps s' → heap s' !! p = Some d → Origin doc s p d.
Proof.
  intros Hin Hp.
  destruct reconcileManifest_spec as [[_ N G O U R D L B F] [Hwfm Holdm]].
  destruct afterManifest_spec as (Hn2 & Hg2 & _ & Hh2).
  destruct pass_spec as (_ & Hn' & Hg' & _ & Hold & Hnew).
  rewrite Hg' in Hin. apply elem_of_app in Hin as [Hin|Hin].
  - (* a member before the unattached files were added *)
    rewrite Hg2 in Hin.
    assert (p < nextPtr s2) as Hlt by (rewrite Hn2; by apply wellFormed_member).
    rewrite Hold, Hh2 in Hp by done.
    apply survivor_Some in Hp as [Hp Hfile].
    destruct (decide (p ∈ ptrs)) as [Hptr|Hptr].
    + apply list_elem_of_lookup_1 in Hptr as [i Hi].
      destruct (lookup_lt_is_Some_2 entries i) as [map Hmap].
      { rewrite <- L. by eapply lookup_lt_Some. }
      destruct (B i p map Hi Hmap) as [Hobj Hname].
      rewrite Hobj in Hp. injection Hp as <-.
      destruct (R p) as [Hfound|Hnewp]; [by eapply list_elem_of_lookup_2|..].
      * apply elem_of_geoMapsDownloadables in Hfound as [Hg0 [d0 Hd0]].
        unfold entryObject in *. rewrite Hd0 in *.
        eapply reused; [exact Hi | exact Hmap | done..].
      * assert (heap s !! p = None) as Hnone.
        { destruct (heap s !! p) as [d0|] eqn:Hd0; [|done].
          apply (wellFormed_lookup _ _ _ Hwf) in Hd0. lia. }
        unfold entryObject in *. rewrite Hnone in *.
        eapply created; [exact Hi | exact Hmap | lia | done |].
        intros q d0 Hq Hd0 Hnot.
        eapply (F i p map Hi Hmap); [lia| |done].
        apply O. split; [|done]. apply elem_of_geoMapsDownloadables. eauto.
    + rewrite U in Hp by done.
      assert (p ∈ _geoMaps s) as Hg0.
      { apply G in Hin as [?|[? _]]; done. }
      apply retained; [done..|].
      apply Hfile. apply O. split; [|done].
      apply elem_of_geoMapsDownloadables. eauto.
  - (* the wrapper of an unattached file *)
    apply elem_of_seq in Hin as [Hle Hlt].
    replace p with (nextPtr s2 + (p - nextPtr s2)) in Hp by lia.
    rewrite Hnew in Hp.
    destruct (paths !! (p - nextPtr s2)) as [path|] eqn:Hpath; [|done].
    injection Hp as <-.
    eapply wrapped; [exact Hpath | fold s2; lia | done].
Qed.

End Pass.

(** ** Names in the umbrella group *)

Section Names.

Context `{Qt.Platform}.




Lemma withEntry_same map d :
  objectName (withEntry map d) = objectName d
  ∧ section (withEntry map d) = section d
  ∧ url (withEntry map d) = url d
  ∧ fileName (withEntry map d) = fileName d.
Proof. done. Qed.

End Names.

(** ** C1: the names in the group after a pass *)

Section GroupNames.

Context `{Qt.Platform}.



(** An old Resource with a local file whose name matches no entry of the
    manifest is kept as it is: in particular its remote URL stays what it
    was. *)
Lemma unlisted_map_is_kept_unchanged s doc p d :
  wellFormed s →
  parsedManifest s = Some doc →
  p ∈ _geoMaps s → heap s !! p = Some d →
  hasFile (files s) d = true →
  (∀ map, map ∈ manifestEntries doc → entryName map ≠ objectName d) →
  let s' := readGeoMapListFromJSONFile s in
  p ∈ _geoMaps s' ∧ heap s' !! p = Some d ∧ files s' = files s.
Proof.
  intros Hwf Hdoc Hin Hd Hfile Hnone s'. subst s'.
  rewrite (readGeoMapListFromJSONFile_parsed _ _ Hdoc).
  assert (p ∉ manifestPtrs doc s) as Hnot.
  { intros Hp. apply list_elem_of_lookup_1 in Hp as [i Hi].
    destruct (reconcileManifest_spec s doc Hwf) as [[_ _ _ _ _ _ _ L B _] _].
    destruct (lookup_lt_is_Some_2 (manifestEntries doc) i) as [map Hmap].
    { rewrite <- L. by eapply lookup_lt_Some. }
    destruct (B i p map Hi Hmap) as [_ Hname].
    unfold entryObject in Hname. rewrite Hd in Hname.
    apply (Hnone map); [by eapply list_elem_of_lookup_2 | done]. }
  destruct (retained_member s doc Hwf p d Hin Hd Hnot Hfile) as [? ?].
  destruct (pass_spec s doc Hwf) as (_ & _ & _ & Hfiles & _).
  done.
Qed.

End GroupNames.

(** ** Unattached files *)

Section UnattachedFiles.

Context `{Qt.Platform}.

Lemma elem_of_filesBelow dir (fs : gmap string File) path :
  path ∈ filesBelow dir fs
  ↔ String.prefix (dir +:+ "/") path = true ∧ is_Some (fs !! path).
Proof.
  unfold filesBelow. rewrite list_elem_of_filter, list_elem_of_fmap.
  split.
  - intros [Hprefix ([path' f] & -> & Hin)].
    split; [done|]. apply elem_of_map_to_list in Hin. simpl. eauto.
  - intros [Hprefix [f Hf]]. split; [done|].
    exists (path, f). split; [done|]. by apply elem_of_map_to_list.
Qed.

Lemma elem_of_unattachedFiles s path :
  path ∈ unattachedFiles s
  ↔ path ∈ filesBelow aviationMapsDir (files s)
    ∧ ∀ p d, p ∈ _geoMaps s → heap s !! p = Some d → fileName d ≠ path.
Proof.
  unfold unattachedFiles. rewrite list_elem_of_filter.
  rewrite <- not_true_iff_false, isAttachedToAviationMap_true.
  split.
  - intros [Hnone Hin]. split; [done|].
    intros p d Hp Hd Hfile. apply Hnone. exists p, d.
    split; [|done]. apply elem_of_geoMapsDownloadables. eauto.
  - intros [Hin Hnone]. split; [|done].
    intros (p & d & Hp & Hd & Hfile).
    apply elem_of_geoMapsDownloadables in Hp as [Hp _].
    by eapply Hnone.
Qed.



End UnattachedFiles.

(** ** C4: orphaned Resources *)

Section Orphans.

Context `{Qt.Platform}.

Lemma orphans_nil s :
  orphans s = []
  ↔ ∀ p d, p ∈ _geoMaps s → heap s !! p = Some d → orphaned s d = false.
Proof.
  unfold orphans. split.
  - intros Hnil p d Hp Hd.
    destruct (orphaned s d) eqn:Horphan; [|done].
    assert (p ∈ filter (λ p, Group.member (heap s) (orphaned s) p = true) (_geoMaps s))
      as Hin.
    { apply list_elem_of_filter. split; [|done].
      unfold Group.member. by rewrite Hd. }
    rewrite Hnil in Hin. by apply elem_of_nil in Hin.
  - intros Hnone. apply elem_of_nil_inv. intros p Hin.
    apply list_elem_of_filter in Hin as [Horphan Hp].
    unfold Group.member in Horphan.
    destruct (heap s !! p) as [d|] eqn:Hd; [|done].
    by rewrite (Hnone p d) in Horphan.
Qed.

Lemma orphaned_files s s' d :
  files s' = files s → orphaned s' d = orphaned s d.
Proof. unfold orphaned. by intros ->. Qed.

(** The loop of [localFileOfGeoMapChanged] removes the orphaned objects of
    its list from the group and touches nothing else. *)
Lemma removeIfOrphaned_loop geoMaps s :
  let s' := foldl removeIfOrphaned s geoMaps in
  heap s' = heap s
  ∧ files s' = files s
  ∧ ∀ q, q ∈ _geoMaps s'
         ↔ q ∈ _geoMaps s
           ∧ ¬ (q ∈ geoMaps ∧ Group.member (heap s) (orphaned s) q = true).
Proof.
  revert s. induction geoMaps as [|p geoMaps IH]; intros s; simpl.
  - split; [done|]. split; [done|]. intros q. split; [|tauto].
    intros Hq. split; [done|]. intros [Hin _]. by apply elem_of_nil in Hin.
  - destruct (IH (removeIfOrphaned s p)) as (Hh & Hf & Hg).
    assert (heap (removeIfOrphaned s p) = heap s
            ∧ files (removeIfOrphaned s p) = files s) as [Hh1 Hf1].
    { unfold removeIfOrphaned. by repeat case_match. }
    split; [congruence|]. split; [congruence|].
    intros q. rewrite Hg, Hh1. rewrite (elem_of_cons geoMaps).
    assert (Group.member (heap s) (orphaned (removeIfOrphaned s p)) q
            = Group.member (heap s) (orphaned s) q) as ->.
    { unfold Group.member. destruct (heap s !! q); [|done].
      by apply orphaned_files. }
    assert (q ∈ _geoMaps (removeIfOrphaned s p)
            ↔ q ∈ _geoMaps s
              ∧ ¬ (q = p ∧ Group.member (heap s) (orphaned s) q = true)) as ->.
    { unfold removeIfOrphaned, Group.member, orphaned.
      destruct (heap s !! p) as [d|] eqn:Hd.
      - destruct (Qt.urlIsValid (url d)) eqn:Hurl.
        + split; [|tauto]. intros Hq. split; [done|].
          intros [-> Hm]. by rewrite Hd, Hurl in Hm.
        + destruct (hasFile (files s) d) eqn:Hfile.
          * split; [|tauto]. intros Hq. split; [done|].
            intros [-> Hm]. by rewrite Hd, Hurl, Hfile in Hm.
          * simpl. unfold Group.removeFromGroup.
            rewrite list_elem_of_filter. split.
            -- intros [Hne Hq]. split; [done|]. by intros [-> _].
            -- intros [Hq Hnot]. split; [|done]. intros ->.
               apply Hnot. split; [done|]. by rewrite Hd, Hurl, Hfile.
      - split; [|tauto]. intros Hq. split; [done|].
        intros [-> Hm]. by rewrite Hd in Hm. }
    tauto.
Qed.

Lemma localFileOfGeoMapChanged_no_orphans s :
  orphans (localFileOfGeoMapChanged s) = [].
Proof.
  unfold localFileOfGeoMapChanged.
  destruct (removeIfOrphaned_loop (geoMapsDownloadables s) s) as (Hh & Hf & Hg).
  apply orphans_nil. intros p d Hp Hd.
  rewrite (orphaned_files s) by done.
  destruct (orphaned s d) eqn:Horphan; [|done].
  apply Hg in Hp as [Hp Hnot]. rewrite Hh in Hd.
  exfalso. apply Hnot. split.
  - apply elem_of_geoMapsDownloadables. eauto.
  - unfold Group.member. by rewrite Hd.
Qed.

(** Without orphaned Resources the slot changes nothing. *)
Lemma localFileOfGeoMapChanged_without_orphans s :
  orphans s = [] → localFileOfGeoMapChanged s = s.
Proof.
  intros Hnone. rewrite orphans_nil in Hnone.
  unfold localFileOfGeoMapChanged.
  assert (∀ p, p ∈ geoMapsDownloadables s → removeIfOrphaned s p = s) as Hstep.
  { intros p Hp. apply elem_of_geoMapsDownloadables in Hp as [Hp [d Hd]].
    unfold removeIfOrphaned. rewrite Hd.
    specialize (Hnone p d Hp Hd). unfold orphaned in Hnone.
    destruct (Qt.urlIsValid (url d)); [done|].
    by destruct (hasFile (files s) d). }
  induction (geoMapsDownloadables s) as [|p geoMaps IH]; [done|].
  simpl. rewrite Hstep by left. apply IH.
  intros q Hq. apply Hstep. by right.
Qed.

Lemma deleteObject_loop geoMaps s :
  let s' := foldl (λ s geoMapPtr, deleteObject geoMapPtr s) s geoMaps in
  _geoMaps s' = _geoMaps s
  ∧ ∀ p, p ∈ geoMaps ∨ heap s !! p = None → heap s' !! p = None.
Proof.
  revert s. induction geoMaps as [|q geoMaps IH]; intros s; simpl.
  - split; [done|]. intros p [Hp|Hp]; [by apply elem_of_nil in Hp | done].
  - destruct (IH (deleteObject q s)) as [Hg Hh].
    split; [done|]. intros p Hp. apply Hh. simpl.
    destruct (decide (p = q)) as [-> |Hne].
    + right. apply lookup_delete_eq.
    + destruct Hp as [Hp|Hp].
      * apply elem_of_cons in Hp as [?|?]; [done | by left].
      * right. by rewrite lookup_delete_ne.
Qed.

Lemma removeFile_loop paths s :
  let s' := foldl removeFile s paths in
  heap s' = heap s ∧ _geoMaps s' = _geoMaps s.
Proof.
  revert s. induction paths as [|path paths IH]; intros s; simpl; [done|].
  by destruct (IH (removeFile s path)) as [-> ->].
Qed.




End Orphans.

(** ** C5: a second pass with the same manifest *)

Section Idempotence.

Context `{Qt.Platform}.









End Idempotence.

(** ** Scheduling: the auto-update timer and the settings gate *)

Section Scheduling.

Context `{Qt.Platform}.

(** The condition of [autoUpdateGeoMapList] holds exactly when no time of
    the last update is recorded or that time is more than six days in the
    past. *)
Lemma updateIsDue_spec now localOffset s :
  updateIsDue now localOffset s
  = negb (Qt.isValid (mapListTimeStamp s))
    || (6 <? Qt.daysTo (mapListTimeStamp s) (Qt.currentDateTime now localOffset))%Z.
Proof.
  unfold updateIsDue. f_equal.
  rewrite Z.gtb_ltb.
  destruct (6 <? _)%Z; reflexivity.
Qed.


(** C10.  When the content of the manifest file changes after a download,
    the time of the last update is set to the current time and the timer is
    restarted at 24 hours, whatever the new content is and whether or not
    it parses; the timer is then not on the one-hour interval. *)
Theorem fileContentChanged_sets_time_and_one_day (now : Z) (s : DataManager)
    (newContent : File) :
  let s' := mapsJsonFileContentChanged now s in
  let s'' := mapsJsonDownloadFinished newContent now s in
  mapListTimeStamp s' = Qt.currentDateTimeUtc now
  ∧ _autoUpdateTimer s' = Some oneDay
  ∧ _autoUpdateTimer s' ≠ Some oneHour
  ∧ mapListTimeStamp s'' = Qt.currentDateTimeUtc now
  ∧ _autoUpdateTimer s'' = Some oneDay
  ∧ _autoUpdateTimer s'' ≠ Some oneHour.
Proof. by repeat split. Qed.

(** With the terms not accepted, the start-up starts no download and
    does not arm the timer. *)
Lemma deferredInitialization_respects_gate now localOffset s :
  acceptedTerms s = false →
  outputs (deferredInitialization now localOffset s) = outputs s
  ∧ _autoUpdateTimer (deferredInitialization now localOffset s) = _autoUpdateTimer s.
Proof.
  intros Hgate. unfold deferredInitialization. rewrite Hgate.
  destruct (files s !! mapsJsonFileName); [|by rewrite Hgate].
  pose proof (sameControl_readGeoMapListFromJSONFile s) as (?&?&?&?&?&?&?).
  done.
Qed.

End Scheduling.

(** ** The group watcher emits a signal only on a change *)

Section WatcherProperties.

Context `{Qt.Platform}.

Import Watcher.

Lemma cleanUp_idempotent heap (members : list nat) :
  cleanUp heap (cleanUp heap members) = cleanUp heap members.
Proof.
  unfold cleanUp. induction members as [|p members IH]; [done|].
  rewrite filter_cons. case_decide as Hp.
  - rewrite filter_cons. rewrite decide_True by done. by rewrite IH.
  - done.
Qed.

(** After the recomputation the cache holds the recomputed values. *)
Lemma checkAndEmitSignals_fresh heap fs w :
  cacheIsFresh {| objects := heap; localFiles := fs;
                  watcher := (checkAndEmitSignals heap fs w).1 |}.
Proof.
  unfold cacheIsFresh, checkAndEmitSignals. simpl.
  rewrite cleanUp_idempotent. by repeat split.
Qed.

(** A signal is not emitted when the recomputed value equals the cached
    one. *)
Lemma checkAndEmitSignals_quiet heap fs w sig :
  sameValue w (checkAndEmitSignals heap fs w).1 sig →
  sig ∉ (checkAndEmitSignals heap fs w).2.
Proof.
  unfold checkAndEmitSignals. simpl. intros Hsame Hin.
  repeat (apply elem_of_app in Hin as [Hin|Hin]);
    case_decide as Hne;
    try (by apply elem_of_nil in Hin);
    apply list_elem_of_singleton in Hin; subst sig; simpl in Hsame; done.
Qed.

Lemma step_quiet x e :
  cacheIsFresh (after (step x e))
  ∧ ∀ sig, sameValue (watcher (before (step x e))) (watcher (after (step x e))) sig →
           sig ∉ emitted (step x e).
Proof.
  destruct e as [p|p|heap fs]; unfold step, addToGroup, removeFromGroup.
  - destruct (checkAndEmitSignals _ _ _) as [w signals] eqn:Hcheck. simpl.
    split.
    + replace w with (w, signals).1 by done. rewrite <- Hcheck.
      apply checkAndEmitSignals_fresh.
    + intros sig Hsame.
      replace signals with (w, signals).2 by done. rewrite <- Hcheck.
      apply checkAndEmitSignals_quiet. by rewrite Hcheck.
  - destruct (checkAndEmitSignals _ _ _) as [w signals] eqn:Hcheck. simpl.
    split.
    + replace w with (w, signals).1 by done. rewrite <- Hcheck.
      apply checkAndEmitSignals_fresh.
    + intros sig Hsame.
      replace signals with (w, signals).2 by done. rewrite <- Hcheck.
      apply checkAndEmitSignals_quiet. by rewrite Hcheck.
  - destruct (checkAndEmitSignals _ _ _) as [w signals] eqn:Hcheck. simpl.
    split.
    + replace w with (w, signals).1 by done. rewrite <- Hcheck.
      apply checkAndEmitSignals_fresh.
    + intros sig Hsame.
      replace signals with (w, signals).2 by done. rewrite <- Hcheck.
      apply checkAndEmitSignals_quiet. by rewrite Hcheck.
Qed.

(** C6.  In every run of additions, removals and changes of the members'
    states, in every step, the cache afterwards holds the freshly
    recomputed values, and for each derived property (downloading,
    hasFile, updatable, files, updateSize, and the list of members with a
    file) no change notification is emitted when the recomputed value
    equals the value cached before. *)
Theorem watcher_emits_only_changes (x : World) (events : list Event) :
  Forall (λ st,
            cacheIsFresh (after st)
            ∧ ∀ sig, sameValue (watcher (before st)) (watcher (after st)) sig →
                     sig ∉ emitted st)
         (run x events).
Proof.
  revert x. induction events as [|e events IH]; intros x; simpl.
  - constructor.
  - constructor; [apply step_quiet | apply IH].
Qed.

End WatcherProperties.

(** ** A manifest that does not parse *)

Section ParseFailure.

Context `{Qt.Platform}.

(** C3, amended.  If the content of the manifest file fails to parse, the
    pass is aborted: no Resource is created, updated or deleted in any
    group and nothing else changes; no error event is emitted, neither by
    the pass nor by the other slot that runs on the new content. *)
Theorem parse_failure_aborts (s : DataManager) (mapsJson : File) (now : Z) :
  files s !! mapsJsonFileName = Some mapsJson →
  Qt.fromJson (content mapsJson) = None →
  readGeoMapListFromJSONFile s = s
  ∧ outputs (mapsJsonFileContentChanged now s) = outputs s.
Proof.
  intros Hfile Hparse.
  assert (readGeoMapListFromJSONFile s = s) as Hread.
  { unfold readGeoMapListFromJSONFile. by rewrite Hfile, Hparse. }
  split; [done|].
  unfold mapsJsonFileContentChanged. by rewrite Hread.
Qed.

End ParseFailure.

(** ** Concrete runs *)

Section Runs.

Import Scenario.

#[local] Existing Instance examples.

Local Ltac evaluate := vm_compute; reflexivity.

(** C2 at a concrete input.  The map "lakes" is installed and the new
    manifest omits it: after the pass the Resource is still in the group
    and still has its local file, but its remote URL was not cleared; it
    is valid as before, and the Resource counts as updatable. *)
Lemma withdrawn_map_keeps_valid_url :
  parsedManifest lakesWithdrawn = Some noMaps
  ∧ _geoMaps lakesWithdrawn = [0]
  ∧ (∃ d, heap lakesWithdrawn !! 0 = Some d
          ∧ objectName d = "lakes"
          ∧ hasFile (files lakesWithdrawn) d = true
          ∧ url d = Some "https://cplx.vm.uni-freiburg.de/storage/europe/lakes.geojson"
          ∧ Qt.urlIsValid (url d) = true
          ∧ updatable (files lakesWithdrawn) d = true).
Proof.
  split; [evaluate|]. split; [evaluate|].
  eexists. split; [evaluate|]. vm_compute. by repeat split.
Qed.

(** C8 at a concrete input.  While the terms are not accepted, a download
    of the manifest is started by the change of the setting itself and by
    the auto-update timer. *)
Lemma download_started_while_gate_is_closed :
  (let s' := acceptedTermsChanged false accepted in
   acceptedTerms s' = false
   ∧ outputs s' = outputs accepted ++ [manifestDownloadStarted])
  ∧ (let s' := autoUpdateTimerTimeout 1700000000000 3600 notAccepted in
     acceptedTerms notAccepted = false
     ∧ acceptedTerms s' = false
     ∧ outputs s' = outputs notAccepted ++ [manifestDownloadStarted]).
Proof. vm_compute. by repeat split. Qed.

Lemma parse_failure_aborts_witness :
  readGeoMapListFromJSONFile malformed = malformed
  ∧ outputs (mapsJsonFileContentChanged 1700000000000 malformed) = outputs malformed.
Proof.
  apply (parse_failure_aborts malformed (file "{ maps: [")); evaluate.
Defined.

(** C3 as stated fails: the manifest file does not parse, and the slots
    that run on the new content emit no error event, whereas a failed
    download emits one. *)
Lemma parse_failure_emits_no_error :
  parsedManifest malformed = None
  ∧ (∃ mapsJson, files malformed !! mapsJsonFileName = Some mapsJson
                 ∧ Qt.fromJson (content mapsJson) = None)
  ∧ ¬ (∃ message,
         error message ∈ outputs (mapsJsonFileContentChanged 1700000000000 malformed))
  ∧ outputs (mapsJsonDownloadFailed "Connection refused" malformed)
    = [error "Connection refused"].
Proof.
  split; [evaluate|]. split.
  { exists (file "{ maps: ["). split; evaluate. }
  split; [|evaluate].
  assert (outputs (mapsJsonFileContentChanged 1700000000000 malformed) = [])
    as -> by evaluate.
  intros [message Hin]. by apply elem_of_nil in Hin.
Qed.

Lemma fresh_wellFormed fs : wellFormed (fresh fs).
Proof. split; [apply map_Forall_empty | constructor]. Qed.










Example orphan_name : unattachedName orphanPath = "orphan".
Proof. evaluate. Qed.

End Runs.

(** * Further properties of the code *)

(** ** Fields of a string *)

Section Fields.

Lemma append_cons c (s t : string) : String c s +:+ t = String c (s +:+ t).
Proof. reflexivity. Qed.

Lemma append_nil_r (s : string) : s +:+ "" = s.
Proof. induction s as [|c s IH]; [done | by rewrite append_cons, IH]. Qed.

Lemma append_assoc (s t u : string) : (s +:+ t) +:+ u = s +:+ (t +:+ u).
Proof. induction s as [|c s IH]; [done | by rewrite !append_cons, IH]. Qed.

Lemma length_append (s t : string) :
  String.length (s +:+ t) = String.length s + String.length t.
Proof. induction s as [|c s IH]; [done | rewrite append_cons; simpl; by rewrite IH]. Qed.

Lemma hasChar_append c s t :
  hasChar c (s +:+ t) = hasChar c s || hasChar c t.
Proof.
  induction s as [|c' s IH]; [done|].
  rewrite append_cons. simpl. rewrite IH. by rewrite orb_assoc.
Qed.

Lemma split_not_nil sep s : Qt.split sep s ≠ [].
Proof.
  destruct s as [|c s]; simpl; [done|].
  destruct (Ascii.eqb c sep); [done|]. by destruct (Qt.split sep s).
Qed.

(** A string without the separator is one field. *)
Lemma split_one_field sep s :
  hasChar sep s = false → Qt.split sep s = [s].
Proof.
  induction s as [|c s IH]; simpl; [done|].
  intros Hno. apply orb_false_iff in Hno as [Hc Hs].
  rewrite Hc, IH by done. done.
Qed.

(** The fields of two strings joined by the separator. *)
Lemma split_append sep s t :
  Qt.split sep (s +:+ String sep t) = Qt.split sep s ++ Qt.split sep t.
Proof.
  induction s as [|c s IH].
  - change ("" +:+ String sep t) with (String sep t). simpl.
    by rewrite Ascii.eqb_refl.
  - rewrite append_cons. simpl.
    destruct (Ascii.eqb c sep); [by rewrite IH|].
    rewrite IH. destruct (Qt.split sep s) as [|f fs] eqn:Hs; [|done].
    by apply split_not_nil in Hs.
Qed.

(** Joining the fields gives the string back. *)
Lemma join_split sep s : Qt.join sep (Qt.split sep s) = s.
Proof.
  induction s as [|c s IH]; simpl; [done|].
  destruct (Ascii.eqb_spec c sep) as [->|Hne].
  - destruct (Qt.split sep s) as [|f fs] eqn:Hs.
    + by apply split_not_nil in Hs.
    + simpl. by rewrite <- IH.
  - destruct (Qt.split sep s) as [|f fs] eqn:Hs.
    + by apply split_not_nil in Hs.
    + rewrite <- IH. by destruct fs.
Qed.

(** No field contains the separator. *)
Lemma split_fields_clean sep s f :
  f ∈ Qt.split sep s → hasChar sep f = false.
Proof.
  revert f. induction s as [|c s IH]; simpl; intros f Hf.
  - by apply list_elem_of_singleton in Hf as ->.
  - destruct (Ascii.eqb c sep) eqn:Hc.
    + apply elem_of_cons in Hf as [-> |Hf]; [done | by apply IH].
    + destruct (Qt.split sep s) as [|f0 fs] eqn:Hs.
      * apply list_elem_of_singleton in Hf as ->. simpl. by rewrite Hc.
      * apply elem_of_cons in Hf as [-> |Hf].
        -- simpl. rewrite Hc. apply IH. left.
        -- apply IH. by right.
Qed.

(** [section(sep, k, k)] is a field of the string, or empty. *)
Lemma section_one_field sep k s :
  Qt.section sep k k s ∈ Qt.split sep s ∨ Qt.section sep k k s = "".
Proof.
  unfold Qt.section.
  set (fields := Qt.split sep s).
  set (n := Z.of_nat (length fields)).
  set (k' := if (k <? 0)%Z then (k + n)%Z else k).
  destruct ((k' >=? n)%Z || (k' <? 0)%Z || (k' >? k')%Z) eqn:Hrange; [by right|].
  apply orb_false_iff in Hrange as [Hrange _].
  apply orb_false_iff in Hrange as [Hhi Hlo].
  assert (0 ≤ k' < n)%Z as Hk by lia.
  replace (Z.to_nat (k' + 1) - Z.to_nat (Z.max 0 k')) with 1 by lia.
  replace (Z.to_nat (Z.max 0 k')) with (Z.to_nat k') by lia.
  destruct (drop (Z.to_nat k') fields) as [|f rest] eqn:Hdrop.
  - by right.
  - left. simpl.
    assert (f ∈ drop (Z.to_nat k') fields) as Hin by (rewrite Hdrop; left).
    apply list_elem_of_lookup_1 in Hin as [i Hi].
    rewrite lookup_drop in Hi. by eapply list_elem_of_lookup_2.
Qed.

Lemma section_one_field_clean sep k s :
  hasChar sep (Qt.section sep k k s) = false.
Proof.
  destruct (section_one_field sep k s) as [Hin| ->]; [|done].
  by eapply split_fields_clean.
Qed.

(** The last field: [section(sep, -1, -1)]. *)
Lemma section_last sep s :
  Qt.section sep (-1) (-1) s = default "" (last (Qt.split sep s)).
Proof.
  unfold Qt.section.
  pose proof (split_not_nil sep s) as Hne.
  set (fields := Qt.split sep s) in *.
  assert (0 < length fields) as Hlen by (destruct fields; [done | simpl; lia]).
  replace (-1 <? 0)%Z with true by done.
  set (n := Z.of_nat (length fields)).
  assert ((-1 + n >=? n)%Z || (-1 + n <? 0)%Z || (-1 + n >? -1 + n)%Z = false) as ->.
  { apply orb_false_iff. split; [apply orb_false_iff; split|]; lia. }
  replace (Z.to_nat (-1 + n + 1) - Z.to_nat (Z.max 0 (-1 + n))) with 1 by lia.
  replace (Z.to_nat (Z.max 0 (-1 + n))) with (length fields - 1) by lia.
  destruct (last fields) as [f|] eqn:Hlast.
  - apply last_Some in Hlast as [front ->].
    rewrite length_app. simpl.
    replace (length front + 1 - 1) with (length front) by lia.
    rewrite drop_app_length. done.
  - apply last_None in Hlast. subst fields. by rewrite Hlast in Hne.
Qed.

Lemma section_last_append sep s t :
  hasChar sep t = false →
  Qt.section sep (-1) (-1) (s +:+ String sep t) = t.
Proof.
  intros Ht. rewrite section_last, split_append, (split_one_field sep t Ht).
  by rewrite last_snoc.
Qed.

(** The field before the last: [section(sep, -2, -2)]. *)
Lemma section_before_last_append sep s t :
  hasChar sep t = false →
  Qt.section sep (-2) (-2) (s +:+ String sep t) = Qt.section sep (-1) (-1) s.
Proof.
  intros Ht. rewrite section_last. unfold Qt.section.
  rewrite split_append, (split_one_field sep t Ht).
  pose proof (split_not_nil sep s) as Hne.
  set (fields := Qt.split sep s) in *.
  assert (0 < length fields) as Hlen by (destruct fields; [done | simpl; lia]).
  rewrite length_app. simpl.
  replace (-2 <? 0)%Z with true by done.
  set (n := Z.of_nat (length fields + 1)).
  assert ((-2 + n >=? n)%Z || (-2 + n <? 0)%Z || (-2 + n >? -2 + n)%Z = false) as ->.
  { apply orb_false_iff. split; [apply orb_false_iff; split|]; lia. }
  replace (Z.to_nat (-2 + n + 1) - Z.to_nat (Z.max 0 (-2 + n))) with 1 by lia.
  replace (Z.to_nat (Z.max 0 (-2 + n))) with (length fields - 1) by lia.
  destruct (last fields) as [f|] eqn:Hlast.
  - apply last_Some in Hlast as [front Hfront]. rewrite Hfront.
    rewrite length_app. simpl.
    replace (length front + 1 - 1) with (length front) by lia.
    rewrite <- app_assoc, drop_app_length. done.
  - apply last_None in Hlast. by rewrite Hlast in Hne.
Qed.

(** A string with fewer than two fields has no field before the last. *)
Lemma section_before_last_one_field sep s :
  hasChar sep s = false → Qt.section sep (-2) (-2) s = "".
Proof. intros Hs. unfold Qt.section. by rewrite (split_one_field sep s Hs). Qed.

(** All fields but the last: [section(sep, 0, -2)]. *)
Lemma section_but_last_append sep s t :
  hasChar sep t = false →
  Qt.section sep 0 (-2) (s +:+ String sep t) = s.
Proof.
  intros Ht. unfold Qt.section.
  rewrite split_append, (split_one_field sep t Ht).
  pose proof (split_not_nil sep s) as Hne.
  set (fields := Qt.split sep s) in *.
  assert (0 < length fields) as Hlen by (destruct fields; [done | simpl; lia]).
  rewrite length_app. simpl.
  replace (0 <? 0)%Z with false by done.
  replace (-2 <? 0)%Z with true by done.
  set (n := Z.of_nat (length fields + 1)).
  assert ((0 >=? n)%Z || (-2 + n <? 0)%Z || (0 >? -2 + n)%Z = false) as ->.
  { apply orb_false_iff. split; [apply orb_false_iff; split|]; lia. }
  replace (Z.to_nat (Z.max 0 0)) with 0 by lia.
  replace (Z.to_nat (-2 + n + 1) - 0) with (length fields) by lia.
  rewrite drop_0, take_app_length. apply join_split.
Qed.

(** The first field: [section(sep, 0, 0)]. *)
Lemma section_first_append sep s t :
  hasChar sep s = false →
  Qt.section sep 0 0 (s +:+ String sep t) = s.
Proof.
  intros Hs. unfold Qt.section.
  rewrite split_append, (split_one_field sep s Hs). simpl.
  pose proof (split_not_nil sep t) as Hne.
  destruct (Qt.split sep t) as [|f fs]; [done|]. simpl.
  done.
Qed.

Lemma section_first_one_field sep s :
  hasChar sep s = false → Qt.section sep 0 0 s = s.
Proof. intros Hs. unfold Qt.section. by rewrite (split_one_field sep s Hs). Qed.


(** The fields of a string that is extended by a string without the
    separator: the last field is extended. *)
Lemma split_append_clean sep s t :
  hasChar sep t = false →
  ∃ front field, Qt.split sep s = front ++ [field]
                 ∧ Qt.split sep (s +:+ t) = front ++ [field +:+ t].
Proof.
  intros Ht. induction s as [|c s (front & field & Hs & Hst)].
  - exists [], "". split; [done|].
    change ("" +:+ t) with t. by apply split_one_field.
  - rewrite append_cons. simpl. rewrite Hs, Hst.
    destruct (Ascii.eqb c sep).
    + by exists ("" :: front), field.
    + destruct front as [|f front]; simpl.
      * by exists [], (String c field).
      * by exists (String c f :: front), field.
Qed.

Lemma section_last_append_clean sep s t :
  hasChar sep t = false →
  Qt.section sep (-1) (-1) (s +:+ t) = Qt.section sep (-1) (-1) s +:+ t.
Proof.
  intros Ht. rewrite !section_last.
  destruct (split_append_clean sep s t Ht) as (front & field & -> & ->).
  by rewrite !last_snoc.
Qed.

End Fields.

(** ** Prefixes, suffixes and occurrences *)

Section Affixes.

Lemma prefix_cons c s t : String.prefix (String c s) (String c t) = String.prefix s t.
Proof. simpl. by destruct (ascii_dec c c). Qed.

Lemma prefix_append (s t : string) : String.prefix s (s +:+ t) = true.
Proof.
  induction s as [|c s IH]; [by destruct t|].
  by rewrite append_cons, prefix_cons.
Qed.


(** A prefix of a string has only characters of the string. *)
Lemma prefix_hasChar c (s t : string) :
  String.prefix s t = true → hasChar c s = true → hasChar c t = true.
Proof.
  revert t. induction s as [|a s IH]; intros t Hprefix Hc; [done|].
  destruct t as [|b t]; [done|]. simpl in Hprefix.
  destruct (ascii_dec a b) as [<-|]; [|done].
  simpl in *. destruct (Ascii.eqb a c); [done|]. by apply IH.
Qed.

Lemma substring_all (s : string) : String.substring 0 (String.length s) s = s.
Proof. induction s as [|c s IH]; simpl; [done | by rewrite IH]. Qed.

Lemma substring_append (s t : string) n :
  String.substring (String.length s) n (s +:+ t) = String.substring 0 n t.
Proof. induction s as [|c s IH]; [done | by rewrite append_cons]. Qed.

(** A string is its first [m] characters followed by the rest. *)
Lemma substring_split (s : string) m :
  m ≤ String.length s →
  s = String.substring 0 m s +:+ String.substring m (String.length s - m) s.
Proof.
  revert m. induction s as [|c s IH]; intros m Hm.
  - by destruct m.
  - destruct m as [|m].
    + simpl. by rewrite substring_all.
    + simpl in *. rewrite append_cons. f_equal. apply IH. lia.
Qed.

(** [endsWith]: the string is some string followed by the suffix. *)
Lemma endsWith_spec (s suffix : string) :
  Qt.endsWith s suffix = true ↔ ∃ front, s = front +:+ suffix.
Proof.
  unfold Qt.endsWith. split.
  - intros Hends. apply andb_true_iff in Hends as [Hle Heq].
    apply Nat.leb_le in Hle. apply String.eqb_eq in Heq.
    exists (String.substring 0 (String.length s - String.length suffix) s).
    pose proof (substring_split s (String.length s - String.length suffix)) as Hsplit.
    replace (String.length s - (String.length s - String.length suffix))
      with (String.length suffix) in Hsplit by lia.
    rewrite Heq in Hsplit. apply Hsplit. lia.
  - intros [front ->]. rewrite length_append.
    apply andb_true_iff. split; [apply Nat.leb_le; lia|].
    apply String.eqb_eq.
    replace (String.length front + String.length suffix - String.length suffix)
      with (String.length front) by lia.
    by rewrite substring_append, substring_all.
Qed.

(** Of two suffixes of a string, the shorter is a suffix of the longer. *)
Lemma suffix_of_suffix (front front' u u' : string) :
  front +:+ u = front' +:+ u' → String.length u' ≤ String.length u →
  ∃ middle, u = middle +:+ u'.
Proof.
  revert front'. induction front as [|c front IH]; intros front' Heq Hlen.
  - by exists front'.
  - destruct front' as [|c' front'].
    + change ("" +:+ u') with u' in Heq. subst u'.
      rewrite append_cons in Hlen. simpl in Hlen.
      rewrite length_append in Hlen. lia.
    + rewrite !append_cons in Heq. injection Heq as _ Heq. by eapply IH.
Qed.

Lemma endsWith_both (s u u' : string) :
  Qt.endsWith s u = true → Qt.endsWith s u' = true →
  String.length u' ≤ String.length u → Qt.endsWith u u' = true.
Proof.
  intros [front Hu]%endsWith_spec [front' Hu']%endsWith_spec Hlen.
  apply endsWith_spec. subst s. by eapply suffix_of_suffix.
Qed.

(** Nothing is removed from a string in which the needle does not occur. *)
Lemma removeFuel_absent fuel (needle s : string) :
  (∀ m, String.substring m (String.length needle) s ≠ needle) →
  Qt.removeFuel fuel needle s = s.
Proof.
  revert s. induction fuel as [|fuel IH]; intros s Habsent; [done|].
  destruct s as [|c s]; [done|]. cbn [Qt.removeFuel].
  destruct (String.prefix needle (String c s)) eqn:Hprefix.
  - apply String.prefix_correct in Hprefix. by apply Habsent in Hprefix.
  - f_equal. apply IH. intros m. apply (Habsent (S m)).
Qed.

(** Removing a directory prefix that occurs at the start of the path and
    nowhere else leaves the rest of the path. *)
Lemma remove_prefix (needle rest : string) :
  needle ≠ "" → String.index 0 needle rest = None →
  Qt.remove needle (needle +:+ rest) = rest.
Proof.
  intros Hne Hindex. unfold Qt.remove.
  destruct needle as [|c needle]; [done|].
  set (n := String c needle) in *.
  assert (Qt.removeFuel (String.length (n +:+ rest)) n (n +:+ rest)
          = Qt.removeFuel (String.length needle + String.length rest) n rest)
    as ->.
  { subst n. rewrite append_cons. cbn [String.length Qt.removeFuel].
    rewrite <- append_cons, prefix_append.
    rewrite length_append.
    replace (String.length (String c needle +:+ rest) - String.length (String c needle))
      with (String.length rest)
      by (rewrite length_append; lia).
    change (S (String.length needle)) with (String.length (String c needle)).
    rewrite substring_append.
    replace (S (String.length needle + String.length rest)
             - String.length (String c needle))
      with (String.length rest) by (simpl; lia).
    by rewrite substring_all. }
  apply removeFuel_absent. intros m.
  eapply String.index_correct3; [exact Hindex | done | lia].
Qed.

End Affixes.

(** ** Names and categories derived from paths *)

Section Naming.

Context `{Qt.Platform}.

Lemma cacheDirPrefix_not_empty : Qt.writableLocation +:+ "/aviation_maps/" ≠ "".
Proof.
  intros Heq. apply (f_equal String.length) in Heq.
  rewrite length_append in Heq. simpl in Heq. lia.
Qed.

(** X1.  The name of a manifest entry is the file stem of its path: for a
    path [dir/stem.ext], where the stem contains neither '.' nor '/' and
    the extension contains no '.', the name that is looked up among the old
    maps and that a new Resource receives is [stem], whatever the directory
    part is. *)
Theorem entry_name_is_file_stem (map : Qt.QJsonValue) (baseURL dir stem ext : string) :
  mapFileNameOf map = dir +:+ "/" +:+ stem +:+ "." +:+ ext →
  hasChar "." stem = false → hasChar "/" stem = false →
  hasChar "." ext = false →
  entryName map = stem ∧ objectName (createdObject baseURL map) = stem.
Proof.
  intros Hpath Hstem Hstem' Hext.
  assert (entryName map = stem) as Hname; [|done].
  unfold entryName, mapNameOf. rewrite Hpath.
  change ("." +:+ ext) with (String "." ext).
  rewrite <- !append_assoc.
  rewrite section_before_last_append by done.
  rewrite !(section_last_append_clean ".") by done.
  rewrite append_assoc. change ("/" +:+ stem) with (String "/" stem).
  by apply section_last_append.
Qed.

(** X2.  The category of a new Resource is the directory that holds the
    file: for a path [front parent/stem.ext], where [front] is empty or
    ends with '/', and neither the parent directory nor the stem contains
    '.' or '/', the section is [parent]. *)
Theorem entry_section_is_parent_directory (map : Qt.QJsonValue)
    (baseURL front parent stem ext : string) :
  mapFileNameOf map = front +:+ parent +:+ "/" +:+ stem +:+ "." +:+ ext →
  front = "" ∨ (∃ f, front = f +:+ "/") →
  hasChar "." parent = false → hasChar "/" parent = false →
  hasChar "." stem = false → hasChar "/" stem = false →
  hasChar "." ext = false →
  section (createdObject baseURL map) = parent.
Proof.
  intros Hpath Hfront Hparent Hparent' Hstem Hstem' Hext.
  unfold createdObject, mapNameOf. cbn [section]. rewrite Hpath.
  change ("." +:+ ext) with (String "." ext).
  rewrite <- !append_assoc.
  rewrite section_before_last_append by done.
  rewrite !(section_last_append_clean ".") by done.
  rewrite append_assoc. change ("/" +:+ stem) with (String "/" stem).
  rewrite section_before_last_append by done.
  destruct Hfront as [-> |[f ->]].
  - change (Qt.section "." (-1) (-1) "" +:+ parent) with parent.
    rewrite section_last, split_one_field by done. done.
  - rewrite (section_last_append_clean ".") by done.
    rewrite append_assoc. change ("/" +:+ parent) with (String "/" parent).
    by apply section_last_append.
Qed.

(** X3.  A path without a directory part, [stem.ext], gives the name
    [stem] and an empty category. *)
Theorem flat_entry_has_empty_section (map : Qt.QJsonValue) (baseURL stem ext : string) :
  mapFileNameOf map = stem +:+ "." +:+ ext →
  hasChar "." stem = false → hasChar "/" stem = false →
  hasChar "." ext = false →
  entryName map = stem ∧ section (createdObject baseURL map) = "".
Proof.
  intros Hpath Hstem Hstem' Hext.
  unfold entryName, createdObject, mapNameOf. cbn [section]. rewrite Hpath.
  change ("." +:+ ext) with (String "." ext).
  rewrite section_before_last_append by done.
  rewrite (section_last "." stem), split_one_field by done. simpl.
  split.
  - rewrite section_last, split_one_field by done. done.
  - by apply section_before_last_one_field.
Qed.

(** X4.  An entry whose path contains no '.', among them an entry that has
    no member "path" or is not an object, has the empty name and the empty
    category. *)
Theorem entry_without_extension_has_empty_name (map : Qt.QJsonValue)
    (baseURL : string) :
  hasChar "." (mapFileNameOf map) = false →
  entryName map = ""
  ∧ objectName (createdObject baseURL map) = ""
  ∧ section (createdObject baseURL map) = "".
Proof.
  intros Hpath.
  unfold entryName, createdObject, mapNameOf. cbn [section objectName].
  unfold entryName, mapNameOf.
  by rewrite section_before_last_one_field.
Qed.

(** X5.  The name and the category that the code derives from a manifest
    entry never contain a '/'. *)
Theorem entry_name_has_no_slash (map : Qt.QJsonValue) (baseURL : string) :
  hasChar "/" (entryName map) = false
  ∧ hasChar "/" (objectName (createdObject baseURL map)) = false
  ∧ hasChar "/" (section (createdObject baseURL map)) = false.
Proof.
  split; [|split]; apply section_one_field_clean.
Qed.

(** X6.  The name given to the wrapper of an unattached file is the part
    of the file's path below the cache directory, up to the first '.': for
    a file [<cache dir>/stem.rest], where the stem contains no '.' and the
    cache directory prefix does not occur again in [stem.rest], the name is
    [stem], directories included; and the name of a wrapper never contains
    a '.'. *)
Theorem unattached_name_is_relative_stem (stem rest : string) :
  hasChar "." stem = false →
  String.index 0 (Qt.writableLocation +:+ "/aviation_maps/")
    (stem +:+ "." +:+ rest) = None →
  unattachedName (Qt.writableLocation +:+ "/aviation_maps/" +:+ stem +:+ "." +:+ rest)
  = stem
  ∧ ∀ path, hasChar "." (unattachedName path) = false.
Proof.
  intros Hstem Hindex. split.
  - unfold unattachedName.
    rewrite <- (append_assoc Qt.writableLocation).
    rewrite remove_prefix by (done || apply cacheDirPrefix_not_empty).
    by apply section_first_append.
  - intros path. apply section_one_field_clean.
Qed.

End Naming.

(** ** What a reconciliation pass does to the Resources *)

Section PassEffects.

Context `{Qt.Platform}.

(** An old map whose name no entry of the manifest has is not the object
    of an entry. *)
Lemma unlisted_not_entry s doc p d :
  wellFormed s → heap s !! p = Some d →
  (∀ map, map ∈ manifestEntries doc → entryName map ≠ objectName d) →
  p ∉ manifestPtrs doc s.
Proof.
  intros Hwf Hd Hnone Hp. apply list_elem_of_lookup_1 in Hp as [i Hi].
  destruct (reconcileManifest_spec s doc Hwf) as [[_ _ _ _ _ _ _ L B _] _].
  destruct (lookup_lt_is_Some_2 (manifestEntries doc) i) as [map Hmap].
  { rewrite <- L. by eapply lookup_lt_Some. }
  destruct (B i p map Hi Hmap) as [_ Hname].
  unfold entryObject in Hname. rewrite Hd in Hname.
  apply (Hnone map); [by eapply list_elem_of_lookup_2 | done].
Qed.

(** The object of an entry, when it is an object that existed before. *)
Lemma entry_of_old_object s doc p d :
  wellFormed s → heap s !! p = Some d → p ∈ manifestPtrs doc s →
  ∃ map, map ∈ manifestEntries doc
         ∧ heap (addUnattachedFiles (afterManifest doc s)) !! p
           = Some (withEntry map d).
Proof.
  intros Hwf Hd Hp. apply list_elem_of_lookup_1 in Hp as [i Hi].
  destruct (reconcileManifest_spec s doc Hwf) as [[_ _ _ _ _ _ _ L _ _] _].
  destruct (lookup_lt_is_Some_2 (manifestEntries doc) i) as [map Hmap].
  { rewrite <- L. by eapply lookup_lt_Some. }
  destruct (entry_member s doc Hwf i map Hmap) as (p' & Hp' & _ & Hobj & _).
  assert (p' = p) as -> by congruence.
  exists map. split; [by eapply list_elem_of_lookup_2|].
  rewrite Hobj. unfold entryObject. by rewrite Hd.
Qed.



(** X8.  A pass never destroys a Resource that has a local file, whether
    or not the manifest lists it and whether or not the manifest parses:
    the Resource stays in the umbrella group with its name, category,
    remote URL and local file. *)
Theorem installed_map_survives (s : DataManager) (p : nat) (d : Downloadable) :
  wellFormed s →
  p ∈ _geoMaps s → heap s !! p = Some d →
  hasFile (files s) d = true →
  let s' := readGeoMapListFromJSONFile s in
  p ∈ _geoMaps s'
  ∧ ∃ d', heap s' !! p = Some d'
          ∧ objectName d' = objectName d
          ∧ section d' = section d
          ∧ url d' = url d
          ∧ fileName d' = fileName d
          ∧ hasFile (files s') d' = true.
Proof.
  intros Hwf Hin Hd Hfile s'. subst s'.
  destruct (parsedManifest s) as [doc|] eqn:Hdoc.
  2: { rewrite (readGeoMapListFromJSONFile_unparsed _ Hdoc).
       split; [done|]. by exists d. }
  rewrite (readGeoMapListFromJSONFile_parsed _ _ Hdoc).
  destruct (pass_spec s doc Hwf) as (_ & _ & Hg' & Hfiles' & _).
  destruct (afterManifest_spec s doc Hwf) as (_ & Hg2 & _).
  destruct (reconcileManifest_spec s doc Hwf) as [[_ _ G _ _ _ _ _ _ _] _].
  split.
  { rewrite Hg', Hg2. apply elem_of_app. left. apply G. by left. }
  destruct (decide (p ∈ manifestPtrs doc s)) as [Hp|Hp].
  - destruct (entry_of_old_object s doc p d Hwf Hd Hp) as (map & _ & Hobj).
    exists (withEntry map d). split; [done|]. repeat (split; [done|]).
    by rewrite Hfiles'.
  - destruct (retained_member s doc Hwf p d Hin Hd Hp Hfile) as [_ Hobj].
    exists d. split; [done|]. repeat (split; [done|]). by rewrite Hfiles'.
Qed.



(** X11.  A Resource without a local file whose name no entry of the
    manifest has is destroyed by the pass. *)
Theorem withdrawn_map_without_file_is_destroyed (s : DataManager)
    (doc : Qt.QJsonValue) (p : nat) (d : Downloadable) :
  wellFormed s →
  parsedManifest s = Some doc →
  p ∈ _geoMaps s → heap s !! p = Some d →
  hasFile (files s) d = false →
  (∀ map, map ∈ manifestEntries doc → entryName map ≠ objectName d) →
  heap (readGeoMapListFromJSONFile s) !! p = None.
Proof.
  intros Hwf Hdoc Hin Hd Hfile Hnone.
  rewrite (readGeoMapListFromJSONFile_parsed _ _ Hdoc).
  pose proof (unlisted_not_entry s doc p d Hwf Hd Hnone) as Hnot.
  destruct (reconcileManifest_spec s doc Hwf) as [[_ _ _ O U _ _ _ _ _] _].
  destruct (afterManifest_spec s doc Hwf) as (Hn2 & _ & _ & Hh2).
  destruct (pass_spec s doc Hwf) as (_ & _ & _ & _ & Hold & _).
  rewrite Hold.
  - rewrite Hh2, U, Hd by done. unfold survivor. rewrite Hfile.
    rewrite decide_True; [done|]. apply O. split; [|done].
    apply elem_of_geoMapsDownloadables. eauto.
  - rewrite Hn2.
    destruct (reconcileManifest_spec s doc Hwf) as [[_ N _ _ _ _ _ _ _ _] _].
    apply (wellFormed_lookup _ _ _ Hwf) in Hd. lia.
Qed.

(** X12.  A document without an array "maps" withdraws every map: each
    Resource of the group that has a local file is kept as it is, and each
    one that has none is destroyed. *)
Theorem manifest_without_maps_withdraws_all (s : DataManager)
    (doc : Qt.QJsonValue) (p : nat) (d : Downloadable) :
  wellFormed s →
  parsedManifest s = Some doc →
  manifestEntries doc = [] →
  p ∈ _geoMaps s → heap s !! p = Some d →
  heap (readGeoMapListFromJSONFile s) !! p
  = if hasFile (files s) d then Some d else None.
Proof.
  intros Hwf Hdoc Hempty Hin Hd.
  rewrite (readGeoMapListFromJSONFile_parsed _ _ Hdoc).
  assert (p ∉ manifestPtrs doc s) as Hnot.
  { unfold manifestPtrs. rewrite Hempty. apply not_elem_of_nil. }
  destruct (reconcileManifest_spec s doc Hwf) as [[_ N _ O U _ _ _ _ _] _].
  destruct (afterManifest_spec s doc Hwf) as (Hn2 & _ & _ & Hh2).
  destruct (pass_spec s doc Hwf) as (_ & _ & _ & _ & Hold & _).
  rewrite Hold.
  - rewrite Hh2, U, Hd by done. unfold survivor.
    rewrite decide_True; [done|]. apply O. split; [|done].
    apply elem_of_geoMapsDownloadables. eauto.
  - rewrite Hn2. apply (wellFormed_lookup _ _ _ Hwf) in Hd. lia.
Qed.



End PassEffects.

(** ** The files of the cache directory *)

Section CacheFiles.

Context `{Qt.Platform}.

Lemma aviationMapsDir_slash :
  aviationMapsDir +:+ "/" = Qt.writableLocation +:+ "/aviation_maps/".
Proof. unfold aviationMapsDir. by rewrite append_assoc. Qed.


Lemma NoDup_filesBelow dir (fs : gmap string File) : NoDup (filesBelow dir fs).
Proof. apply NoDup_filter, NoDup_fst_map_to_list. Qed.


Lemma removeFile_loop_files paths s path :
  files (foldl removeFile s paths) !! path
  = if decide (path ∈ paths) then None else files s !! path.
Proof.
  revert s. induction paths as [|q paths IH]; intros s; cbn [foldl].
  - rewrite decide_False; [done | apply not_elem_of_nil].
  - rewrite IH. cbn [removeFile setFiles files].
    destruct (decide (path ∈ paths)) as [Hin|Hnot].
    + rewrite decide_True; [done | by right].
    + destruct (decide (path = q)) as [-> |Hne].
      * rewrite lookup_delete_eq. rewrite decide_True; [done | left].
      * rewrite lookup_delete_ne by done.
        rewrite decide_False; [done|]. by apply not_elem_of_cons.
Qed.

Lemma deleteObject_loop_rest geoMaps s :
  let s' := foldl (λ s geoMapPtr, deleteObject geoMapPtr s) s geoMaps in
  files s' = files s
  ∧ ∀ p, p ∉ geoMaps → heap s' !! p = heap s !! p.
Proof.
  revert s. induction geoMaps as [|q geoMaps IH]; intros s; simpl; [done|].
  destruct (IH (deleteObject q s)) as [Hf Hh].
  split; [done|]. intros p [Hne Hp]%not_elem_of_cons.
  rewrite Hh by done. simpl. by rewrite lookup_delete_ne.
Qed.


(** X17.  The cleanup at shutdown destroys every Resource of the umbrella
    group and no other object. *)
Theorem cleanUp_destroys_every_map (s : DataManager) :
  (∀ p, heap (cleanUp s) !! p
        = if decide (p ∈ _geoMaps s) then None else heap s !! p)
  ∧ geoMapsDownloadables (cleanUp s) = [].
Proof.
  assert (∀ p, heap (cleanUp s) !! p
            = if decide (p ∈ _geoMaps s) then None else heap s !! p) as Hheap.
  { intros p. unfold cleanUp.
    destruct (removeFile_loop (unattachedFiles s) s) as [Hh1 Hg1].
    set (s1 := foldl removeFile s (unattachedFiles s)) in *.
    destruct (deleteObject_loop (geoMapsDownloadables s1) s1) as [_ Hdel].
    destruct (deleteObject_loop_rest (geoMapsDownloadables s1) s1) as [_ Hrest].
    destruct (decide (p ∈ _geoMaps s)) as [Hin|Hnot].
    - apply Hdel. destruct (heap s1 !! p) as [d|] eqn:Hd; [|by right].
      left. apply elem_of_geoMapsDownloadables. rewrite Hg1. eauto.
    - rewrite Hrest, Hh1; [done|].
      intros [Hin _]%elem_of_geoMapsDownloadables. by rewrite Hg1 in Hin. }
  split; [done|].
  apply elem_of_nil_inv. intros p [Hin [d Hd]]%elem_of_geoMapsDownloadables.
  rewrite Hheap in Hd.
  assert (_geoMaps (cleanUp s) = _geoMaps s) as Hg.
  { unfold cleanUp.
    destruct (removeFile_loop (unattachedFiles s) s) as [_ Hg1].
    destruct (deleteObject_loop
                (geoMapsDownloadables (foldl removeFile s (unattachedFiles s)))
                (foldl removeFile s (unattachedFiles s))) as [-> _].
    done. }
  rewrite Hg in Hin. by rewrite decide_True in Hd.
Qed.

End CacheFiles.

(** ** Resources whose local file is gone *)

Section LocalFileChanged.

Context `{Qt.Platform}.

(** X18.  When the local files of the group change, exactly the Resources
    with an invalid remote URL and without a local file leave the umbrella
    group; no object is destroyed on the spot, no file is touched, and
    running the slot a second time changes nothing. *)
Theorem localFileOfGeoMapChanged_removes_orphans_only (s : DataManager) :
  let s' := localFileOfGeoMapChanged s in
  (∀ q, q ∈ _geoMaps s'
        ↔ q ∈ _geoMaps s ∧ Group.member (heap s) (orphaned s) q = false)
  ∧ heap s' = heap s
  ∧ files s' = files s
  ∧ localFileOfGeoMapChanged s' = s'.
Proof.
  intros s'. subst s'. unfold localFileOfGeoMapChanged at 1 2 3.
  destruct (removeIfOrphaned_loop (geoMapsDownloadables s) s) as (Hh & Hf & Hg).
  split; [|split; [done|split; [done|]]].
  - intros q. rewrite Hg. split.
    + intros [Hq Hnot]. split; [done|].
      destruct (Group.member (heap s) (orphaned s) q) eqn:Hm; [|done].
      exfalso. apply Hnot. split; [|done].
      apply elem_of_geoMapsDownloadables. split; [done|].
      unfold Group.member in Hm. destruct (heap s !! q); [eauto | done].
    + intros [Hq Hm]. split; [done|]. intros [_ Hm']. congruence.
  - apply localFileOfGeoMapChanged_without_orphans.
    apply localFileOfGeoMapChanged_no_orphans.
Qed.

End LocalFileChanged.

(** ** The schedule of the automatic update *)

Section Schedule.

Context `{Qt.Platform}.

(** X19.  After an update was recorded at the time [now], a check at a
    local time less than six days later does not ask for an update: the
    timer is set to 24 hours and no download is started.  This includes
    every check at an earlier clock time than [now]. *)
Theorem update_not_due_within_six_days (now later localOffset : Z)
    (s : DataManager) :
  (later + 1000 * localOffset - now < 6 * oneDay)%Z →
  let s1 := setTimeOfLastUpdateToNow now s in
  let s2 := autoUpdateGeoMapList later localOffset s1 in
  updateIsDue later localOffset s1 = false
  ∧ _autoUpdateTimer s2 = Some oneDay
  ∧ outputs s2 = outputs s
  ∧ mapsJsonDownloading s2 = mapsJsonDownloading s.
Proof.
  intros Hrecent s1 s2.
  assert (updateIsDue later localOffset s1 = false) as Hdue.
  { rewrite updateIsDue_spec. subst s1. simpl. unfold Qt.date. simpl.
    apply Z.ltb_ge. unfold oneDay in Hrecent.
    rewrite Z.mul_0_r, Z.add_0_r.
    assert ((later + 1000 * localOffset) `div` 86400000
            ≤ (now + 6 * 86400000) `div` 86400000)%Z as Hle
      by (apply Z.div_le_mono; lia).
    rewrite Z.div_add in Hle by lia. lia. }
  split; [done|]. subst s2. unfold autoUpdateGeoMapList. by rewrite Hdue.
Qed.

(** X20.  After an update was recorded at the time [now], a check at a
    local time seven days later or more asks for an update: the timer is
    set to one hour and a download of the manifest is in flight. *)
Theorem update_due_after_seven_days (now later localOffset : Z)
    (s : DataManager) :
  (7 * oneDay ≤ later + 1000 * localOffset - now)%Z →
  let s1 := setTimeOfLastUpdateToNow now s in
  let s2 := autoUpdateGeoMapList later localOffset s1 in
  updateIsDue later localOffset s1 = true
  ∧ _autoUpdateTimer s2 = Some oneHour
  ∧ mapsJsonDownloading s2 = true.
Proof.
  intros Hold s1 s2.
  assert (updateIsDue later localOffset s1 = true) as Hdue.
  { rewrite updateIsDue_spec. subst s1. simpl. unfold Qt.date. simpl.
    apply Z.ltb_lt. unfold oneDay in Hold.
    rewrite Z.mul_0_r, Z.add_0_r.
    assert ((now + 7 * 86400000) `div` 86400000
            ≤ (later + 1000 * localOffset) `div` 86400000)%Z as Hle
      by (apply Z.div_le_mono; lia).
    rewrite Z.div_add in Hle by lia. lia. }
  split; [done|]. subst s2. unfold autoUpdateGeoMapList. rewrite Hdue.
  unfold updateGeoMapList, startFileDownload. simpl.
  by destruct (mapsJsonDownloading s) eqn:Hd; simpl; rewrite ?Hd.
Qed.

(** X21.  While the terms are not accepted, the start-up does what a
    reconciliation pass does and nothing else: the manifest file is read if
    it exists, no download is started, and the timer is not armed. *)
Theorem startup_without_consent_only_reads (now localOffset : Z)
    (s : DataManager) :
  acceptedTerms s = false →
  let s' := deferredInitialization now localOffset s in
  s' = readGeoMapListFromJSONFile s
  ∧ outputs s' = outputs s
  ∧ mapsJsonDownloading s' = mapsJsonDownloading s
  ∧ _autoUpdateTimer s' = _autoUpdateTimer s.
Proof.
  intros Hgate s'.
  assert (s' = readGeoMapListFromJSONFile s) as ->.
  { subst s'. unfold deferredInitialization. rewrite Hgate.
    destruct (files s !! mapsJsonFileName) eqn:Hfile; [done|].
    rewrite Hgate. unfold readGeoMapListFromJSONFile. by rewrite Hfile. }
  split; [done|].
  destruct (sameControl_readGeoMapListFromJSONFile s) as (?&?&?&?&?&?&?).
  done.
Qed.

End Schedule.

(** ** Sequences of signals *)

Section Signals.

Context `{Qt.Platform}.

(** What the slots other than the reconciliation leave alone. *)
Lemma localFileOfGeoMapChanged_rest s :
  let s' := localFileOfGeoMapChanged s in
  outputs s' = outputs s ∧ _autoUpdateTimer s' = _autoUpdateTimer s.
Proof.
  unfold localFileOfGeoMapChanged.
  apply (foldl_invariant
           (λ acc, outputs acc = outputs s
                   ∧ _autoUpdateTimer acc = _autoUpdateTimer s)); [done|].
  intros acc p [Ho Ht]. unfold removeIfOrphaned. by repeat case_match.
Qed.

Lemma cleanUp_rest s :
  outputs (cleanUp s) = outputs s
  ∧ _autoUpdateTimer (cleanUp s) = _autoUpdateTimer s.
Proof.
  unfold cleanUp.
  apply (foldl_invariant
           (λ acc, outputs acc = outputs s
                   ∧ _autoUpdateTimer acc = _autoUpdateTimer s)); [|done].
  apply (foldl_invariant
           (λ acc, outputs acc = outputs s
                   ∧ _autoUpdateTimer acc = _autoUpdateTimer s)); done.
Qed.

Lemma cleanUp_files s path :
  files (cleanUp s) !! path
  = if decide (path ∈ unattachedFiles s) then None else files s !! path.
Proof.
  unfold cleanUp.
  destruct (deleteObject_loop_rest
              (geoMapsDownloadables (foldl removeFile s (unattachedFiles s)))
              (foldl removeFile s (unattachedFiles s))) as [-> _].
  apply removeFile_loop_files.
Qed.

(** One signal: the timer, the files and the errors. *)
Lemma deliver_timer s signal :
  (is_Some (_autoUpdateTimer s) →
   is_Some (_autoUpdateTimer (Wiring.deliver s signal)))
  ∧ ∀ interval, _autoUpdateTimer (Wiring.deliver s signal) = Some interval →
      _autoUpdateTimer s = Some interval
      ∨ interval = oneHour ∨ interval = oneDay.
Proof.
  destruct signal as [now localOffset|now|message|accepted| | |]; simpl.
  - unfold autoUpdateTimerTimeout.
    destruct (_autoUpdateTimer s) as [t|] eqn:Ht; [|by rewrite Ht; eauto].
    unfold autoUpdateGeoMapList, updateGeoMapList, startFileDownload.
    destruct (updateIsDue now localOffset s); simpl.
    + destruct (mapsJsonDownloading s); simpl; split; eauto;
        intros ? [= <-]; eauto.
    + split; eauto. intros ? [= <-]; eauto.
  - split; eauto. intros ? [= <-]; eauto.
  - eauto.
  - unfold acceptedTermsChanged, updateGeoMapList, startFileDownload. simpl.
    destruct (mapsJsonDownloading s); simpl; eauto.
  - destruct (localFileOfGeoMapChanged_rest s) as [_ ->]. eauto.
  - unfold updateGeoMapList, startFileDownload.
    destruct (mapsJsonDownloading s); simpl; eauto.
  - destruct (cleanUp_rest s) as [_ ->]. eauto.
Qed.

Lemma deliver_files s signal path :
  files (Wiring.deliver s signal) !! path = files s !! path
  ∨ (signal = Wiring.qApp_aboutToQuit
     ∧ files (Wiring.deliver s signal) !! path = None
     ∧ String.prefix (Qt.writableLocation +:+ "/aviation_maps/") path = true).
Proof.
  destruct signal as [now localOffset|now|message|accepted| | |]; simpl.
  - left. unfold autoUpdateTimerTimeout, autoUpdateGeoMapList, updateGeoMapList,
      startFileDownload.
    by repeat (case_match; simpl).
  - left. by destruct (sameControl_readGeoMapListFromJSONFile s)
      as (_&_&_&_&->&_).
  - by left.
  - left. unfold acceptedTermsChanged, updateGeoMapList, startFileDownload.
    by repeat (case_match; simpl).
  - left. unfold localFileOfGeoMapChanged.
    by destruct (removeIfOrphaned_loop (geoMapsDownloadables s) s) as (_ & -> & _).
  - left. unfold updateGeoMapList, startFileDownload.
    by repeat (case_match; simpl).
  - rewrite cleanUp_files.
    destruct (decide (path ∈ unattachedFiles s)) as [Hin|Hnot]; [|by left].
    right. split; [done|]. split; [done|].
    apply elem_of_unattachedFiles in Hin as [Hin _].
    apply elem_of_filesBelow in Hin as [Hprefix _].
    by rewrite aviationMapsDir_slash in Hprefix.
Qed.

Lemma deliver_errors s signal :
  Wiring.errorsOf (outputs (Wiring.deliver s signal))
  = Wiring.errorsOf (outputs s) ++ Wiring.downloadErrors [signal].
Proof.
  unfold Wiring.errorsOf.
  destruct signal as [now localOffset|now|message|accepted| | |]; simpl;
    rewrite ?app_nil_r.
  - unfold autoUpdateTimerTimeout, autoUpdateGeoMapList, updateGeoMapList,
      startFileDownload.
    repeat (case_match; simpl); rewrite ?omap_app, ?app_nil_r; done.
  - by destruct (sameControl_readGeoMapListFromJSONFile s)
      as (_&_&_&_&_&_&->).
  - by rewrite omap_app.
  - unfold acceptedTermsChanged, updateGeoMapList, startFileDownload.
    repeat (case_match; simpl); rewrite ?omap_app, ?app_nil_r; done.
  - by destruct (localFileOfGeoMapChanged_rest s) as [-> _].
  - unfold updateGeoMapList, startFileDownload.
    repeat (case_match; simpl); rewrite ?omap_app, ?app_nil_r; done.
  - by destruct (cleanUp_rest s) as [-> _].
Qed.

(** X22.  No signal stops the timer of the automatic update: once the
    timer is armed it stays armed, and every interval it is set to is one
    hour or 24 hours. *)
Theorem timer_is_never_stopped (signals : list Wiring.Input) (s : DataManager) :
  (is_Some (_autoUpdateTimer s) →
   is_Some (_autoUpdateTimer (Wiring.deliverAll s signals)))
  ∧ ∀ interval, _autoUpdateTimer (Wiring.deliverAll s signals) = Some interval →
      _autoUpdateTimer s = Some interval
      ∨ interval = oneHour ∨ interval = oneDay.
Proof.
  unfold Wiring.deliverAll. revert s.
  induction signals as [|signal signals IH]; intros s; simpl; [eauto|].
  destruct (IH (Wiring.deliver s signal)) as [Harmed Hinterval].
  destruct (deliver_timer s signal) as [Harmed1 Hinterval1].
  split; [eauto|]. intros interval Hi.
  destruct (Hinterval interval Hi) as [Hi1|Hi1]; [|by right].
  by apply Hinterval1.
Qed.

(** X23.  The slots of the DataManager create and change no file, and they
    remove files only at shutdown and only below the cache directory:
    after any sequence of signals, a file path holds what it held before,
    or the sequence contains [aboutToQuit], the path is below the cache
    directory and the file is gone. *)
Theorem slots_only_remove_cache_files_at_shutdown (signals : list Wiring.Input)
    (s : DataManager) (path : string) :
  files (Wiring.deliverAll s signals) !! path = files s !! path
  ∨ (Wiring.qApp_aboutToQuit ∈ signals
     ∧ files (Wiring.deliverAll s signals) !! path = None
     ∧ String.prefix (Qt.writableLocation +:+ "/aviation_maps/") path = true).
Proof.
  unfold Wiring.deliverAll. revert s.
  induction signals as [|signal signals IH]; intros s; simpl; [by left|].
  destruct (IH (Wiring.deliver s signal)) as [Hsame|(Hquit & Hnone & Hprefix)].
  - rewrite Hsame.
    destruct (deliver_files s signal path) as [Hsame1|(-> & Hnone & Hprefix)].
    + by left.
    + right. split; [left | done].
  - right. split; [by right | done].
Qed.

(** X24.  The DataManager reports exactly the errors of the manifest
    download, each once and in their order: whatever else happens, among
    it a manifest file that does not parse, raises no error. *)
Theorem only_download_errors_are_reported (signals : list Wiring.Input)
    (s : DataManager) :
  Wiring.errorsOf (outputs (Wiring.deliverAll s signals))
  = Wiring.errorsOf (outputs s) ++ Wiring.downloadErrors signals.
Proof.
  unfold Wiring.deliverAll. revert s.
  induction signals as [|signal signals IH]; intros s; simpl.
  - by rewrite app_nil_r.
  - rewrite IH, deliver_errors, <- app_assoc. f_equal.
    unfold Wiring.downloadErrors. simpl. by destruct signal.
Qed.

End Signals.

(** ** The correction of file names in the constructor *)

Section FileNames.

Context `{Qt.Platform}.

Lemma isOffending_spec filePath :
  isOffending filePath = true
  ↔ ∃ stem, filePath = stem +:+ ".geojson.geojson"
            ∨ filePath = stem +:+ ".mbtiles.mbtiles".
Proof.
  unfold isOffending. rewrite orb_true_iff, !endsWith_spec. split.
  - intros [[stem ->]|[stem ->]]; exists stem; [by left | by right].
  - intros [stem [-> | ->]]; [left | right]; by exists stem.
Qed.

Lemma correctedName_geojson stem :
  correctedName (stem +:+ ".geojson.geojson") = stem +:+ ".geojson".
Proof.
  unfold correctedName.
  change (stem +:+ ".geojson.geojson")
    with (stem +:+ ".geojson" +:+ String "." "geojson").
  rewrite <- append_assoc. by apply section_but_last_append.
Qed.

Lemma correctedName_mbtiles stem :
  correctedName (stem +:+ ".mbtiles.mbtiles") = stem +:+ ".mbtiles".
Proof.
  unfold correctedName.
  change (stem +:+ ".mbtiles.mbtiles")
    with (stem +:+ ".mbtiles" +:+ String "." "mbtiles").
  rewrite <- append_assoc. by apply section_but_last_append.
Qed.

(** Two offending files are not renamed to the same name. *)
Lemma correctedName_inj q r :
  isOffending q = true → isOffending r = true →
  correctedName q = correctedName r → q = r.
Proof.
  intros [stem Hq]%isOffending_spec [stem' Hr]%isOffending_spec.
  destruct Hq as [-> | ->], Hr as [-> | ->];
    rewrite ?correctedName_geojson, ?correctedName_mbtiles; intros Heq.
  - change (stem +:+ ".geojson.geojson")
      with (stem +:+ ".geojson" +:+ ".geojson").
    change (stem' +:+ ".geojson.geojson")
      with (stem' +:+ ".geojson" +:+ ".geojson").
    by rewrite <- !append_assoc, Heq.
  - assert (Qt.endsWith ".geojson" ".mbtiles" = true) as Habs; [|done].
    apply (endsWith_both (stem +:+ ".geojson")); [| |done];
      apply endsWith_spec; eauto.
  - assert (Qt.endsWith ".mbtiles" ".geojson" = true) as Habs; [|done].
    apply (endsWith_both (stem +:+ ".mbtiles")); [| |done];
      apply endsWith_spec; eauto.
  - change (stem +:+ ".mbtiles.mbtiles")
      with (stem +:+ ".mbtiles" +:+ ".mbtiles").
    change (stem' +:+ ".mbtiles.mbtiles")
      with (stem' +:+ ".mbtiles" +:+ ".mbtiles").
    by rewrite <- !append_assoc, Heq.
Qed.

Lemma elem_of_offendingFiles fs path :
  path ∈ offendingFiles fs
  ↔ isOffending path = true
    ∧ String.prefix (Qt.writableLocation +:+ "/aviation_maps/") path = true
    ∧ is_Some (fs !! path).
Proof.
  unfold offendingFiles.
  by rewrite list_elem_of_filter, elem_of_filesBelow, aviationMapsDir_slash.
Qed.

Lemma RenameLoop_start fs0 rest : RenameLoop fs0 [] rest fs0.
Proof.
  split; [done|by left|by left|].
  intros q Hq. by apply elem_of_nil in Hq.
Qed.

(** One round of the loop. *)
Lemma RenameLoop_step fs0 done q rest fs :
  NoDup (q :: rest) → (q ∉ done) →
  (∀ r, r ∈ done ∨ r ∈ q :: rest → isOffending r = true ∧ is_Some (fs0 !! r)) →
  RenameLoop fs0 done (q :: rest) fs →
  RenameLoop fs0 (done ++ [q]) rest (rename fs q (correctedName q)).
Proof.
  intros [Hq Hrest]%NoDup_cons Hnew Hall [R K O M].
  destruct (Hall q) as [Hoff [fq Hfq]]; [right; left|].
  assert (fs !! q = Some fq) as Hfsq by (rewrite R; [done | left]).
  unfold rename. rewrite Hfsq.
  destruct (fs !! correctedName q) as [f'|] eqn:Htarget.
  - (* the target exists: nothing happens *)
    split.
    + intros r Hr. apply R. by right.
    + intros path f Hpath. destruct (K path f Hpath) as [?|(Hd & Hn & Hf)].
      * by left.
      * right. split; [apply elem_of_app; by left|]. split; [|done].
        intros Hin. apply Hn. by right.
    + intros path f Hpath. destruct (O path f Hpath) as [?|(r & Hr & ? & ?)].
      * by left.
      * right. exists r. split; [apply elem_of_app; by left | done].
    + intros r [Hr| ->%list_elem_of_singleton]%elem_of_app Hfree.
      * by apply M.
      * exfalso. destruct (O _ _ Htarget) as [Hsome|(r & Hr & Hname & _)].
        -- congruence.
        -- apply correctedName_inj in Hname; [congruence| |done].
           apply Hall. by left.
  - (* the file is renamed *)
    assert (correctedName q ≠ q) as Hne by congruence.
    split.
    + intros r Hr.
      assert (fs !! r = fs0 !! r) as Hr' by (apply R; by right).
      destruct (Hall r) as [_ [fr Hfr]]; [right; by right|].
      rewrite lookup_insert_ne by congruence.
      rewrite lookup_delete_ne by (intros ->; done). done.
    + intros path f Hpath. destruct (K path f Hpath) as [Hsame|(Hd & Hn & Hf)].
      * destruct (decide (path = q)) as [-> |Hpq].
        -- right. split; [apply elem_of_app; right; left|].
           split.
           ++ intros Hin. destruct (Hall (correctedName q)) as [_ [f0 Hf0]];
                [right; by right|].
              rewrite <- R in Hf0 by (by right). congruence.
           ++ rewrite lookup_insert_eq. congruence.
        -- left. rewrite lookup_insert_ne by congruence.
           by rewrite lookup_delete_ne.
      * right. split; [apply elem_of_app; by left|]. split.
        -- intros Hin. apply Hn. by right.
        -- rewrite lookup_insert_ne by congruence.
           rewrite lookup_delete_ne; [done|].
           intros Heq. apply Hn. rewrite <- Heq. left.
    + intros path f Hpath.
      destruct (decide (path = correctedName q)) as [-> |Hpn].
      * rewrite lookup_insert_eq in Hpath. injection Hpath as <-.
        right. exists q. split; [apply elem_of_app; right; left | done].
      * rewrite lookup_insert_ne in Hpath by done.
        destruct (decide (path = q)) as [-> |Hpq].
        { by rewrite lookup_delete_eq in Hpath. }
        rewrite lookup_delete_ne in Hpath by done.
        destruct (O path f Hpath) as [?|(r & Hr & ? & ?)]; [by left|].
        right. exists r. split; [apply elem_of_app; by left | done].
    + intros r [Hr| ->%list_elem_of_singleton]%elem_of_app Hfree.
      * rewrite lookup_insert_ne.
        -- rewrite lookup_delete_ne; [by apply M|]. congruence.
        -- intros Heq. specialize (M r Hr Hfree).
           destruct (Hall r) as [_ [fr Hfr]]; [by left|].
           rewrite <- Heq, Htarget, Hfr in M. done.
      * by rewrite lookup_insert_eq.
Qed.

Lemma RenameLoop_all fs0 rest done fs :
  NoDup (done ++ rest) →
  (∀ r, r ∈ done ++ rest → isOffending r = true ∧ is_Some (fs0 !! r)) →
  RenameLoop fs0 done rest fs →
  RenameLoop fs0 (done ++ rest) []
    (foldl (λ fs offendingFile, rename fs offendingFile (correctedName offendingFile))
           fs rest).
Proof.
  revert done fs. induction rest as [|q rest IH]; intros done fs Hnodup Hall Hloop.
  - by rewrite app_nil_r.
  - simpl. rewrite (assoc_L (++) done [q] rest : done ++ q :: rest = (done ++ [q]) ++ rest).
    apply IH.
    + by rewrite <- (assoc_L (++)).
    + intros r Hr. apply Hall. by rewrite <- (assoc_L (++)) in Hr.
    + apply NoDup_app in Hnodup as (_ & Hdisj & Hrest).
      apply RenameLoop_step; [done| |  |done].
      * intros Hin. apply (Hdisj q Hin). left.
      * intros r Hr. apply Hall. apply elem_of_app. done.
Qed.

Lemma correctFileNames_loop fs :
  RenameLoop fs (offendingFiles fs) [] (correctFileNames fs).
Proof.
  unfold correctFileNames.
  apply (RenameLoop_all fs (offendingFiles fs) [] fs).
  - apply NoDup_filter, NoDup_filesBelow.
  - intros r Hr. apply elem_of_offendingFiles in Hr. tauto.
  - apply RenameLoop_start.
Qed.

(** X25.  The file names that the constructor corrects are those that end
    with ".geojson.geojson" or ".mbtiles.mbtiles", and the corrected name
    drops the second extension. *)
Theorem corrected_name_drops_second_extension (filePath : string) :
  isOffending filePath = true →
  ∃ stem,
    (filePath = stem +:+ ".geojson.geojson"
     ∧ correctedName filePath = stem +:+ ".geojson")
    ∨ (filePath = stem +:+ ".mbtiles.mbtiles"
       ∧ correctedName filePath = stem +:+ ".mbtiles").
Proof.
  intros [stem [-> | ->]]%isOffending_spec; exists stem.
  - left. split; [done | apply correctedName_geojson].
  - right. split; [done | apply correctedName_mbtiles].
Qed.

(** X26.  The correction of file names loses no file and invents none:
    every file is found afterwards with its content under its old name or
    under its corrected name, a file whose name is not offending or that
    is outside the cache directory stays where it is, and every file
    found afterwards was there before under that name or under a name that
    was corrected to it. *)
Theorem correctFileNames_keeps_every_file (fs : gmap string File) :
  (∀ path f, fs !! path = Some f →
     correctFileNames fs !! path = Some f
     ∨ (isOffending path = true
        ∧ String.prefix (Qt.writableLocation +:+ "/aviation_maps/") path = true
        ∧ correctFileNames fs !! correctedName path = Some f))
  ∧ (∀ path f, correctFileNames fs !! path = Some f →
       fs !! path = Some f
       ∨ ∃ q, isOffending q = true ∧ correctedName q = path ∧ fs !! q = Some f).
Proof.
  destruct (correctFileNames_loop fs) as [_ K O _].
  split.
  - intros path f Hpath. destruct (K path f Hpath) as [?|(Hd & _ & Hf)].
    + by left.
    + right. apply elem_of_offendingFiles in Hd. tauto.
  - intros path f Hpath. destruct (O path f Hpath) as [?|(q & Hq & ? & ?)].
    + by left.
    + right. exists q. apply elem_of_offendingFiles in Hq. tauto.
Qed.


End FileNames.

(** ** Aviation maps, base maps and databases *)

Section SubGroup.

Context `{Qt.Platform}.

Lemma elem_of_addToGroup (p q : nat) (g : list nat) :
  q ∈ Group.addToGroup p g ↔ q ∈ g ∨ q = p.
Proof.
  unfold Group.addToGroup. case_decide as Hp.
  - split; [by left|]. by intros [?| ->].
  - by rewrite elem_of_app, list_elem_of_singleton.
Qed.

(** One of the three sub-groups, given by its member list and the suffix
    of the local file name that selects it. *)
Variable get : DataManager → list nat.
Variable suffix : string.

Hypothesis get_updateExisting :
  ∀ p map s, get (updateExisting p map s) = get s.
Hypothesis get_createFromEntry :
  ∀ baseURL map s,
    get (createFromEntry baseURL map s)
    = if Qt.endsWith (entryLocalFileName map) suffix
      then Group.addToGroup (nextPtr s) (get s) else get s.
Hypothesis get_deleteIfNoFile : ∀ s p, get (deleteIfNoFile s p) = get s.
Hypothesis get_addUnattached : ∀ s path, get (addUnattached s path) = get s.

(** The members of the sub-group after the loop over the manifest: the
    members before, and the new objects of the entries whose local file
    name has the suffix. *)
Lemma subGroup_loop baseURL entries s oldMaps :
  loopReady s oldMaps →
  ∀ q, q ∈ get (foldl (reconcileEntry baseURL) (s, oldMaps) entries).1
       ↔ q ∈ get s
         ∨ ∃ i map, entryPtrs baseURL (s, oldMaps) entries !! i = Some q
                    ∧ entries !! i = Some map
                    ∧ nextPtr s ≤ q
                    ∧ Qt.endsWith (entryLocalFileName map) suffix = true.
Proof.
  revert s oldMaps.
  induction entries as [|map entries IH]; intros s oldMaps Hready q.
  - simpl. split; [by left|]. intros [?|(i & map & Hi & _)]; [done|].
    by rewrite lookup_nil in Hi.
  - cbn [foldl entryPtrs].
    destruct (round_spec baseURL s oldMaps map Hready)
      as [[_ Hn _ Hold _ _ _ _ _ _] Hready1].
    pose proof (manifestLoop_spec baseURL entries _ _ Hready1)
      as [[_ _ _ _ _ Hrange _ _ _ _] _].
    rewrite <- surjective_pairing in Hrange.
    specialize (IH _ _ Hready1 q). rewrite <- surjective_pairing in IH.
    rewrite IH. clear IH.
    assert (∀ j, entryPtrs baseURL (reconcileEntry baseURL (s, oldMaps) map)
                   entries !! j = Some q →
                 nextPtr s ≤ q →
                 nextPtr (reconcileEntry baseURL (s, oldMaps) map).1 ≤ q)
      as Htail.
    { intros j Hj Hle.
      destruct (Hrange q) as [Hq|Hq]; [by eapply list_elem_of_lookup_2| |lia].
      apply Hold in Hq as [Hq _].
      apply (loopReady_below _ _ _ Hready) in Hq. lia. }
    assert (q ∈ get (reconcileEntry baseURL (s, oldMaps) map).1
            ↔ q ∈ get s
              ∨ (q = entryPtr (s, oldMaps) map ∧ nextPtr s ≤ q
                 ∧ Qt.endsWith (entryLocalFileName map) suffix = true))
      as Hhead.
    { unfold reconcileEntry, entryPtr. simpl.
      destruct (findByName (heap s) oldMaps (entryName map)) as [p|] eqn:Hfind;
        simpl.
      - rewrite get_updateExisting. split; [by left|].
        intros [?|(-> & Hle & _)]; [done|].
        apply findByName_Some in Hfind as [Hp _].
        apply (loopReady_below _ _ _ Hready) in Hp. lia.
      - rewrite get_createFromEntry.
        destruct (Qt.endsWith (entryLocalFileName map) suffix).
        + rewrite elem_of_addToGroup. split.
          * intros [?| ->]; [by left | by right].
          * intros [?|(-> & _)]; [by left | by right].
        + split; [by left|]. by intros [?|(_ & _ & ?)]. }
    rewrite Hhead. split.
    + intros [[Hq|(-> & Hle & Hends)]|(j & map' & Hj & Hmap' & Hle & Hends)].
      * by left.
      * right. by exists 0, map.
      * right. exists (S j), map'. repeat (split; [done|]). split; [lia | done].
    + intros [Hq|(i & map' & Hi & Hmap' & Hle & Hends)]; [by left; left|].
      destruct i as [|j]; simpl in Hi, Hmap'.
      * left. right. by simplify_eq.
      * right. exists j, map'. repeat (split; [done|]). split; [|done].
        by eapply Htail.
Qed.

Lemma get_deleteLeftovers acc : get (deleteLeftovers acc) = get acc.1.
Proof.
  unfold deleteLeftovers.
  apply (foldl_invariant (λ s, get s = get acc.1)); [done|].
  intros s p Hs _. by rewrite get_deleteIfNoFile.
Qed.

Lemma get_addUnattachedFiles s : get (addUnattachedFiles s) = get s.
Proof.
  unfold addUnattachedFiles.
  apply (foldl_invariant (λ s', get s' = get s)); [done|].
  intros s' path Hs _. by rewrite get_addUnattached.
Qed.

(** The members of the sub-group after a pass. *)
Lemma subGroup_pass s doc :
  wellFormed s →
  ∀ q, q ∈ get (addUnattachedFiles (afterManifest doc s))
       ↔ q ∈ get s
         ∨ ∃ i map, manifestPtrs doc s !! i = Some q
                    ∧ manifestEntries doc !! i = Some map
                    ∧ nextPtr s ≤ q
                    ∧ Qt.endsWith (entryLocalFileName map) suffix = true.
Proof.
  intros Hwf q.
  rewrite get_addUnattachedFiles. unfold afterManifest.
  rewrite get_deleteLeftovers. unfold reconcileManifest.
  apply subGroup_loop. by apply loopReady_start.
Qed.

End SubGroup.

Section SubGroups.

Context `{Qt.Platform}.

Lemma createFromEntry_subGroups baseURL map s :
  _aviationMaps (createFromEntry baseURL map s)
  = (if Qt.endsWith (entryLocalFileName map) "geojson"
     then Group.addToGroup (nextPtr s) (_aviationMaps s) else _aviationMaps s)
  ∧ _baseMaps (createFromEntry baseURL map s)
    = (if Qt.endsWith (entryLocalFileName map) "mbtiles"
       then Group.addToGroup (nextPtr s) (_baseMaps s) else _baseMaps s)
  ∧ _databases (createFromEntry baseURL map s)
    = (if Qt.endsWith (entryLocalFileName map) "txt"
       then Group.addToGroup (nextPtr s) (_databases s) else _databases s).
Proof.
  unfold createFromEntry, new, entryLocalFileName. cbn zeta.
  repeat split; by repeat case_match.
Qed.

Lemma aviationMaps_pass s doc :
  wellFormed s →
  ∀ q, q ∈ _aviationMaps (addUnattachedFiles (afterManifest doc s))
       ↔ q ∈ _aviationMaps s
         ∨ ∃ i map, manifestPtrs doc s !! i = Some q
                    ∧ manifestEntries doc !! i = Some map
                    ∧ nextPtr s ≤ q
                    ∧ Qt.endsWith (entryLocalFileName map) "geojson" = true.
Proof.
  apply (subGroup_pass _aviationMaps "geojson"); [done| | |done].
  - intros. apply createFromEntry_subGroups.
  - intros s' p. unfold deleteIfNoFile. by repeat case_match.
Qed.

Lemma baseMaps_pass s doc :
  wellFormed s →
  ∀ q, q ∈ _baseMaps (addUnattachedFiles (afterManifest doc s))
       ↔ q ∈ _baseMaps s
         ∨ ∃ i map, manifestPtrs doc s !! i = Some q
                    ∧ manifestEntries doc !! i = Some map
                    ∧ nextPtr s ≤ q
                    ∧ Qt.endsWith (entryLocalFileName map) "mbtiles" = true.
Proof.
  apply (subGroup_pass _baseMaps "mbtiles"); [done| | |done].
  - intros. apply createFromEntry_subGroups.
  - intros s' p. unfold deleteIfNoFile. by repeat case_match.
Qed.

Lemma databases_pass s doc :
  wellFormed s →
  ∀ q, q ∈ _databases (addUnattachedFiles (afterManifest doc s))
       ↔ q ∈ _databases s
         ∨ ∃ i map, manifestPtrs doc s !! i = Some q
                    ∧ manifestEntries doc !! i = Some map
                    ∧ nextPtr s ≤ q
                    ∧ Qt.endsWith (entryLocalFileName map) "txt" = true.
Proof.
  apply (subGroup_pass _databases "txt"); [done| | |done].
  - intros. apply createFromEntry_subGroups.
  - intros s' p. unfold deleteIfNoFile. by repeat case_match.
Qed.







(** The sub-groups and the wrapper of an unattached file. *)
Lemma wrapper_subGroups s doc i :
  wellFormed s → subGroupsSound s →
  let s' := addUnattachedFiles (afterManifest doc s) in
  let p := nextPtr (afterManifest doc s) + i in
  (p ∉ _aviationMaps s') ∧ (p ∉ _baseMaps s') ∧ (p ∉ _databases s').
Proof.
  intros Hwf (Hsub & _) s' p. subst s' p.
  destruct (reconcileManifest_spec s doc Hwf) as [[_ N _ _ _ R _ _ _ _] _].
  destruct (afterManifest_spec s doc Hwf) as (Hn2 & _).
  assert (∀ q, q ∈ _aviationMaps s ∨ q ∈ _baseMaps s ∨ q ∈ _databases s →
               q < nextPtr s) as Hbelow.
  { intros q Hq. apply (wellFormed_member _ _ Hwf). by apply Hsub. }
  assert (∀ j q, manifestPtrs doc s !! j = Some q →
                 q < nextPtr (afterManifest doc s)) as Hptr.
  { intros j q Hq. rewrite Hn2.
    destruct (R q) as [Hold|Hnew]; [by eapply list_elem_of_lookup_2| |lia].
    apply elem_of_geoMapsDownloadables in Hold as [Hold _].
    apply (wellFormed_member _ _ Hwf) in Hold. lia. }
  assert (nextPtr s ≤ nextPtr (afterManifest doc s)) as Hle by (rewrite Hn2; lia).
  split; [|split].
  - rewrite (aviationMaps_pass s doc Hwf).
    intros [Hq|(j & map & Hj & _)].
    + assert (nextPtr (afterManifest doc s) + i < nextPtr s)
        by (apply Hbelow; tauto). lia.
    + apply Hptr in Hj. lia.
  - rewrite (baseMaps_pass s doc Hwf).
    intros [Hq|(j & map & Hj & _)].
    + assert (nextPtr (afterManifest doc s) + i < nextPtr s)
        by (apply Hbelow; tauto). lia.
    + apply Hptr in Hj. lia.
  - rewrite (databases_pass s doc Hwf).
    intros [Hq|(j & map & Hj & _)].
    + assert (nextPtr (afterManifest doc s) + i < nextPtr s)
        by (apply Hbelow; tauto). lia.
    + apply Hptr in Hj. lia.
Qed.

(** X30.  A Resource that a pass adds to the umbrella group without a
    remote URL, which is the wrapper of an unattached file, has the
    category "Unsupported Maps" and joins none of the three sub-groups,
    whatever the file is called. *)
Theorem wrapper_is_in_no_subGroup (s : DataManager) (doc : Qt.QJsonValue)
    (p : nat) (d : Downloadable) :
  wellFormed s → subGroupsSound s →
  parsedManifest s = Some doc →
  p ∈ _geoMaps (readGeoMapListFromJSONFile s) →
  (p ∉ _geoMaps s) →
  heap (readGeoMapListFromJSONFile s) !! p = Some d →
  url d = None →
  section d = "Unsupported Maps"
  ∧ (p ∉ _aviationMaps (readGeoMapListFromJSONFile s))
  ∧ (p ∉ _baseMaps (readGeoMapListFromJSONFile s))
  ∧ (p ∉ _databases (readGeoMapListFromJSONFile s)).
Proof.
  intros Hwf Hsound Hdoc. rewrite (readGeoMapListFromJSONFile_parsed _ _ Hdoc).
  intros Hin Hnew Hd Hurl.
  destruct (member_origin s doc Hwf p d Hin Hd)
    as [i map d0 Hi Hmap Hold Hd0 Hname -> |i map Hi Hmap Hle -> Hfresh
       |Hold Hd0 Hnot Hfile|i path Hpath -> ->]; [done..|].
  split; [done|]. by apply wrapper_subGroups.
Qed.

End SubGroups.

(** ** The properties at concrete inputs *)

Section Invariant.

Context `{Qt.Platform}.

Lemma wellFormed_readGeoMapListFromJSONFile s :
  wellFormed s → wellFormed (readGeoMapListFromJSONFile s).
Proof.
  intros Hwf. destruct (parsedManifest s) as [doc|] eqn:Hdoc.
  - rewrite (readGeoMapListFromJSONFile_parsed _ _ Hdoc).
    by destruct (pass_spec s doc Hwf) as [? _].
  - by rewrite (readGeoMapListFromJSONFile_unparsed _ Hdoc).
Qed.

Lemma wellFormed_setFiles fs s : wellFormed s → wellFormed (setFiles fs s).
Proof. intros Hwf. exact Hwf. Qed.

End Invariant.

Section FurtherRuns.

Import Scenario Cases.

#[local] Existing Instance examples.

Local Ltac evaluate := vm_compute; reflexivity.

Lemma lakesInstalled_wellFormed : wellFormed lakesInstalled.
Proof. apply wellFormed_readGeoMapListFromJSONFile, fresh_wellFormed. Qed.

Lemma lakesOffered_wellFormed : wellFormed lakesOffered.
Proof. apply wellFormed_readGeoMapListFromJSONFile, fresh_wellFormed. Qed.

Lemma fresh_subGroupsSound fs : subGroupsSound (fresh fs).
Proof.
  split; [|split; [|split]].
  - intros p [Hp|[Hp|Hp]]; by apply elem_of_nil in Hp.
  - intros p [Hp _]. by apply elem_of_nil in Hp.
  - intros p [Hp _]. by apply elem_of_nil in Hp.
  - intros p [Hp _]. by apply elem_of_nil in Hp.
Qed.



Lemma entry_name_is_file_stem_witness :
  entryName (entry "v1.2/europe/lakes.geojson" 1000 "20230101") = "lakes"
  ∧ objectName (createdObject baseURL (entry "v1.2/europe/lakes.geojson" 1000 "20230101"))
    = "lakes".
Proof.
  apply (entry_name_is_file_stem _ baseURL "v1.2/europe" "lakes" "geojson");
    reflexivity.
Defined.

Lemma entry_section_is_parent_directory_witness :
  section (createdObject baseURL (entry "maps/europe/lakes.geojson" 1000 "20230101"))
  = "europe".
Proof.
  apply (entry_section_is_parent_directory _ baseURL "maps/" "europe" "lakes" "geojson");
    [reflexivity | right; by exists "maps" | reflexivity..].
Defined.

Lemma flat_entry_has_empty_section_witness :
  entryName (entry "lakes.geojson" 1000 "20230101") = "lakes"
  ∧ section (createdObject baseURL (entry "lakes.geojson" 1000 "20230101")) = "".
Proof.
  apply (flat_entry_has_empty_section _ baseURL "lakes" "geojson"); reflexivity.
Defined.

Lemma entry_without_extension_has_empty_name_witness :
  entryName (Qt.Object [("size", Qt.Double 1000)]) = ""
  ∧ objectName (createdObject baseURL (Qt.Object [("size", Qt.Double 1000)])) = ""
  ∧ section (createdObject baseURL (Qt.Object [("size", Qt.Double 1000)])) = "".
Proof.
  apply (entry_without_extension_has_empty_name _ baseURL). reflexivity.
Defined.

Lemma unattached_name_is_relative_stem_witness :
  unattachedName "/data/aviation_maps/sub/orphan.mbtiles.part" = "sub/orphan"
  ∧ ∀ path, hasChar "." (unattachedName path) = false.
Proof.
  exact (unattached_name_is_relative_stem "sub/orphan" "mbtiles.part"
           eq_refl eq_refl).
Defined.

Lemma installed_map_survives_witness :
  let s' := readGeoMapListFromJSONFile lakesReplaced in
  0 ∈ _geoMaps s'
  ∧ ∃ d', heap s' !! 0 = Some d'
          ∧ objectName d' = objectName (createdObject baseURL lakesEntry)
          ∧ section d' = section (createdObject baseURL lakesEntry)
          ∧ url d' = url (createdObject baseURL lakesEntry)
          ∧ fileName d' = fileName (createdObject baseURL lakesEntry)
          ∧ hasFile (files s') d' = true.
Proof.
  apply (installed_map_survives lakesReplaced 0 (createdObject baseURL lakesEntry)).
  - apply wellFormed_setFiles, lakesInstalled_wellFormed.
  - vm_compute. left.
  - evaluate.
  - evaluate.
Defined.



Lemma withdrawn_map_without_file_is_destroyed_witness :
  heap (readGeoMapListFromJSONFile offerReplaced) !! 0 = None.
Proof.
  apply (withdrawn_map_without_file_is_destroyed offerReplaced orphanOffered 0
           (createdObject baseURL lakesEntry)).
  - apply wellFormed_setFiles, lakesOffered_wellFormed.
  - evaluate.
  - vm_compute. left.
  - evaluate.
  - evaluate.
  - assert (manifestEntries orphanOffered = [orphanEntry]) as -> by evaluate.
    intros map ->%list_elem_of_singleton. by vm_compute.
Defined.

Lemma manifest_without_maps_withdraws_all_witness :
  heap (readGeoMapListFromJSONFile offerWithdrawn) !! 0
  = if hasFile (files offerWithdrawn) (createdObject baseURL lakesEntry)
    then Some (createdObject baseURL lakesEntry) else None.
Proof.
  apply (manifest_without_maps_withdraws_all offerWithdrawn noMaps 0
           (createdObject baseURL lakesEntry)).
  - apply wellFormed_setFiles, lakesOffered_wellFormed.
  - evaluate.
  - evaluate.
  - vm_compute. left.
  - evaluate.
Defined.


Lemma update_not_due_within_six_days_witness :
  let s1 := setTimeOfLastUpdateToNow 1700000000000 accepted in
  let s2 := autoUpdateGeoMapList 1700432000000 3600 s1 in
  updateIsDue 1700432000000 3600 s1 = false
  ∧ _autoUpdateTimer s2 = Some oneDay
  ∧ outputs s2 = outputs accepted
  ∧ mapsJsonDownloading s2 = mapsJsonDownloading accepted.
Proof.
  apply (update_not_due_within_six_days 1700000000000 1700432000000 3600 accepted).
  by vm_compute.
Defined.

Lemma update_due_after_seven_days_witness :
  let s1 := setTimeOfLastUpdateToNow 1700000000000 accepted in
  let s2 := autoUpdateGeoMapList 1700604800000 0 s1 in
  updateIsDue 1700604800000 0 s1 = true
  ∧ _autoUpdateTimer s2 = Some oneHour
  ∧ mapsJsonDownloading s2 = true.
Proof.
  apply (update_due_after_seven_days 1700000000000 1700604800000 0 accepted).
  by vm_compute.
Defined.

Lemma startup_without_consent_only_reads_witness :
  let s' := deferredInitialization 1700000000000 3600 notAccepted in
  s' = readGeoMapListFromJSONFile notAccepted
  ∧ outputs s' = outputs notAccepted
  ∧ mapsJsonDownloading s' = mapsJsonDownloading notAccepted
  ∧ _autoUpdateTimer s' = _autoUpdateTimer notAccepted.
Proof.
  apply (startup_without_consent_only_reads 1700000000000 3600 notAccepted).
  reflexivity.
Defined.

Lemma corrected_name_drops_second_extension_witness :
  ∃ stem,
    (doubledPath = stem +:+ ".geojson.geojson"
     ∧ correctedName doubledPath = stem +:+ ".geojson")
    ∨ (doubledPath = stem +:+ ".mbtiles.mbtiles"
       ∧ correctedName doubledPath = stem +:+ ".mbtiles").
Proof.
  apply (corrected_name_drops_second_extension doubledPath). reflexivity.
Defined.





Lemma wrapper_is_in_no_subGroup_witness :
  section (unattachedObject orphanPath) = "Unsupported Maps"
  ∧ (1 ∉ _aviationMaps (readGeoMapListFromJSONFile lakesAndOrphan))
  ∧ (1 ∉ _baseMaps (readGeoMapListFromJSONFile lakesAndOrphan))
  ∧ (1 ∉ _databases (readGeoMapListFromJSONFile lakesAndOrphan)).
Proof.
  apply (wrapper_is_in_no_subGroup lakesAndOrphan lakes 1
           (unattachedObject orphanPath)).
  - apply fresh_wellFormed.
  - apply fresh_subGroupsSound.
  - evaluate.
  - vm_compute. right. left.
  - vm_compute. apply not_elem_of_nil.
  - evaluate.
  - reflexivity.
Defined.

End FurtherRuns.
